(** * Solar-site suitability analysis: classification, overlay and zones

    A shallow embedding of [script/solar_suitability.py].  The script
    derives four criteria from a terrain model (slope, aspect, solar
    radiation, distance to roads), turns each into a 1..5 score with a
    remap table, combines the scores with fixed weights and extracts the
    zones whose suitability reaches 4.5.

    Cell values are IEEE floats in the script; here they are rationals
    ([Q]), so comparisons are the script's comparisons and sums and
    products are exact.  A raster is a row-major grid of cells and a
    cell without data is [None]. *)

From Stdlib Require Import Ascii String.
From Stdlib Require Import List Bool Arith ZArith QArith Qround Lia Lqa.
From Stdlib Require Import Permutation Sorted Finite.
Import ListNotations.
Open Scope Q_scope.

(** ** Rasters *)

Abbreviation cell := (option Q).
Abbreviation raster := (list (list (option Q))).

(** The cell at [(row, col)], when the grid has one. *)
Definition cell_at {A : Type} (g : list (list A)) (row col : nat) : option A :=
  match nth_error g row with
  | Some line => nth_error line col
  | None => None
  end.

(** Every cell of a grid with its coordinates, row by row. *)
Fixpoint index_from {A : Type} (k : nat) (l : list A) : list (nat * A) :=
  match l with
  | [] => []
  | x :: l' => (k, x) :: index_from (S k) l'
  end.

Definition row_cells {A : Type} (row : nat) (line : list A) : list (nat * nat * A) :=
  map (fun ca => (row, fst ca, snd ca)) (index_from 0 line).


Definition grid_cells {A : Type} (g : list (list A)) : list (nat * nat * A) :=
  flat_map (fun rl => row_cells (fst rl) (snd rl)) (index_from 0 g).

(** Cell-wise combination of two grids on the same lattice. *)
Fixpoint zip_with {A B C : Type} (f : A -> B -> C) (l : list A) (m : list B) : list C :=
  match l, m with
  | x :: l', y :: m' => f x y :: zip_with f l' m'
  | _, _ => []
  end.

Definition grid_zip {A B C : Type} (f : A -> B -> C)
  (g : list (list A)) (h : list (list B)) : list (list C) :=
  zip_with (zip_with f) g h.

Definition grid_map {A B : Type} (f : A -> B) (g : list (list A)) : list (list B) :=
  map (map f) g.

(** ** Outcomes *)

(** The failures the specification names (its section 7), and
    [PercentileOfEmpty] for [np.percentile] on an empty sample. *)
Inductive error : Type :=
| GridMismatchError
| OutOfRangeError (value : Q) (row col : nat)
| EmptySampleError
| ConfigurationError
| PercentileOfEmpty.

Inductive result (A : Type) : Type :=
| Ok (a : A)
| Err (e : error).
Arguments Ok {A} a.
Arguments Err {A} e.

Definition bind {A B : Type} (m : result A) (k : A -> result B) : result B :=
  match m with
  | Ok a => k a
  | Err e => Err e
  end.

Notation "x <- m ;; k" := (bind m (fun x => k))
  (at level 61, m at next level, right associativity).

(** An indexed function on an element paired with its index. *)
Definition at_index {A B : Type} (f : nat -> A -> B) (kx : nat * A) : B :=
  f (fst kx) (snd kx).

(** Runs [f] over a list from left to right and stops at the first failure. *)
Fixpoint traverse {A B : Type} (f : A -> result B) (l : list A) : result (list B) :=
  match l with
  | [] => Ok []
  | x :: l' => y <- f x ;; ys <- traverse f l' ;; Ok (y :: ys)
  end.

(** ** Comparisons on cell values *)

Definition Qleb (x y : Q) : bool := Qle_bool x y.
Definition Qltb (x y : Q) : bool := negb (Qle_bool y x).

(** ** Remap tables *)

(** One row [[start, end, new_value]] of a [RemapRange]. *)
Record range : Type := mkRange { lo : Q; hi : Q; new_value : Q }.

Definition remap : Type := list range.

(** The table of [calculate_slope]. *)
Definition slope_remap : remap :=
  [ mkRange 0 5 5;
    mkRange 5 10 4;
    mkRange 10 15 3;
    mkRange 15 20 2;
    mkRange 20 90 1 ].

(** The table of [calculate_aspect]. *)
Definition aspect_remap : remap :=
  [ mkRange 0 45 2;
    mkRange 45 135 4;
    mkRange 135 225 5;
    mkRange 225 315 4;
    mkRange 315 360 2;
    mkRange (-1) 0 3 ].

(** The table of [calculate_distance_to_roads]. *)
Definition distance_remap : remap :=
  [ mkRange 0 500 5;
    mkRange 500 1000 4;
    mkRange 1000 2000 3;
    mkRange 2000 3000 2;
    mkRange 3000 100000 1 ].

(** Modelled from the spec: [arcpy.sa.Reclassify] with a [RemapRange] is
    called by the script but is not part of it.  Section 4.2: a value
    belongs to the range [[lo, hi)] that contains it, a boundary value to
    the range where it is the lower bound, and the final range of the
    table is closed on both ends. *)
Fixpoint remap_lookup (t : remap) (v : Q) : option Q :=
  match t with
  | [] => None
  | rg :: rest =>
      match rest with
      | [] => if Qleb (lo rg) v && Qleb v (hi rg) then Some (new_value rg) else None
      | _ :: _ => if Qleb (lo rg) v && Qltb v (hi rg) then Some (new_value rg)
                  else remap_lookup rest v
      end
  end.

(** Modelled from the spec: one cell of [Reclassify].  Section 4.2: NoData
    passes through, and a value that no range contains fails with
    [OutOfRangeError] naming the value and the cell. *)
Definition reclassify_cell (t : remap) (rc : nat * nat * cell) : result cell :=
  match rc with
  | (_, _, None) => Ok None
  | (row, col, Some v) =>
      match remap_lookup t v with
      | Some s => Ok (Some s)
      | None => Err (OutOfRangeError v row col)
      end
  end.

Definition reclassify_row (t : remap) (row : nat) (line : list cell) : result (list cell) :=
  traverse (reclassify_cell t) (row_cells row line).

(** Modelled from the spec: [Reclassify(raster, "VALUE", remap)], cells
    visited row by row. *)
Definition Reclassify (g : raster) (t : remap) : result raster :=
  traverse (at_index (reclassify_row t)) (index_from 0 g).

(** [calculate_slope], from the slope raster on: the script's [Slope] tool
    is outside the model. *)
Definition calculate_slope (slope : raster) : result raster :=
  Reclassify slope slope_remap.

Definition calculate_aspect (aspect : raster) : result raster :=
  Reclassify aspect aspect_remap.

Definition calculate_distance_to_roads (distance : raster) : result raster :=
  Reclassify distance distance_remap.

(** ** Solar radiation: quantile breaks *)

(** Modelled from the spec: [arcpy.RasterToNumPyArray] is not part of the
    script.  Section 3: a raster has a NoData value, and the cells
    without data are the cells equal to it.  The array holds the cell
    values, and the raster's NoData value in the cells without data. *)
Definition RasterToNumPyArray (nodata_value : Q) (g : raster) : list (list Q) :=
  grid_map (fun c => match c with Some v => v | None => nodata_value end) g.

(** [solar_array[solar_array > 0]]: the selected elements as a flat array,
    in row-major order. *)
Definition valid_values (solar_array : list (list Q)) : list Q :=
  filter (fun v => Qltb 0 v) (concat solar_array).

Fixpoint insert (x : Q) (l : list Q) : list Q :=
  match l with
  | [] => [x]
  | y :: l' => if Qleb x y then x :: l else y :: insert x l'
  end.

(** The order statistics of a sample. *)
Fixpoint sort (l : list Q) : list Q :=
  match l with
  | [] => []
  | x :: l' => insert x (sort l')
  end.

(** Modelled from the spec: [np.percentile(a, q)] belongs to numpy, not to
    the script.  Section 4.3: linear interpolation between order
    statistics.  The position [(n - 1) * q / 100] lies between two
    neighbouring order statistics and the result is taken linearly
    between them.  An empty array has no order statistic: numpy gives no
    number there (an exception of its own or not-a-number, by version),
    which is [PercentileOfEmpty]. *)
Definition percentile (a : list Q) (q : Q) : result Q :=
  match sort a with
  | [] => Err PercentileOfEmpty
  | (first :: _) as s =>
      let n := length s in
      let virtual_index := inject_Z (Z.of_nat n - 1) * (q / 100) in
      let previous := Qfloor virtual_index in
      let gamma := virtual_index - inject_Z previous in
      let below := nth (Z.to_nat previous) s first in
      let above := nth (Nat.min (S (Z.to_nat previous)) (n - 1)) s first in
      Ok (below + (above - below) * gamma)
  end.

Definition quantiles : list Q := [0; 0.2; 0.4; 0.6; 0.8; 1.0].

(** The [valid_values] sample of [calculate_solar_radiation]. *)
Definition solar_sample (nodata_value : Q) (solar : raster) : list Q :=
  let solar_array := RasterToNumPyArray nodata_value solar in
  valid_values solar_array.

(** The [breaks] list of [calculate_solar_radiation]. *)
Definition solar_breaks (nodata_value : Q) (solar : raster) : result (list Q) :=
  traverse (fun q => percentile (solar_sample nodata_value solar) (q * 100)) quantiles.

(** The [RemapRange] built from the six breaks. *)
Definition breaks_remap (breaks : list Q) : remap :=
  let b := fun k : nat => nth k breaks 0 in
  [ mkRange (b 0%nat) (b 1%nat) 1;
    mkRange (b 1%nat) (b 2%nat) 2;
    mkRange (b 2%nat) (b 3%nat) 3;
    mkRange (b 3%nat) (b 4%nat) 4;
    mkRange (b 4%nat) (b 5%nat) 5 ].

(** [calculate_solar_radiation], from the solar raster on: the script's
    [AreaSolarRadiation] tool is outside the model. *)
Definition calculate_solar_radiation (nodata_value : Q) (solar : raster) : result raster :=
  breaks <- solar_breaks nodata_value solar ;;
  Reclassify solar (breaks_remap breaks).

(** ** Weighted overlay *)

(** Modelled from the spec: the operators [*] and [+] on arcpy rasters
    are not part of the script.  Section 4.4: the sum is taken cell by
    cell, and a cell without data in an operand has no data in the
    result. *)
Definition times (w : Q) (g : raster) : raster :=
  grid_map (fun c => match c with Some v => Some (w * v) | None => None end) g.

Definition plus_cell (a b : cell) : cell :=
  match a, b with
  | Some x, Some y => Some (x + y)
  | _, _ => None
  end.

Definition plus (g h : raster) : raster := grid_zip plus_cell g h.

(** Modelled from the spec: [ExtractByMask] belongs to arcpy.  Section
    4.4: the cells outside the mask become NoData.  The mask is given as
    the grid that tells the inside cells. *)
Definition ExtractByMask (g : raster) (mask : list (list bool)) : raster :=
  grid_zip (fun (c : cell) (inside : bool) => if inside then c else None) g mask.

(** The four weights of the overlay, in the order slope, aspect, solar,
    distance. *)
Record weights : Type :=
  mkWeights { w_slope : Q; w_aspect : Q; w_solar : Q; w_distance : Q }.

Definition weights_sum (w : weights) : Q :=
  w_slope w + w_aspect w + w_solar w + w_distance w.

(** The weighted sum of [calculate_suitability], its four literals taken
    as the weights [w]. *)
Definition weighted_sum (w : weights)
  (slope_score aspect_score solar_score distance_score : raster) : raster :=
  plus (plus (plus (times (w_slope w) slope_score)
                   (times (w_aspect w) aspect_score))
             (times (w_solar w) solar_score))
       (times (w_distance w) distance_score).

(** The body of [calculate_suitability]: the weighted sum, then the mask
    when there is one.  Nothing is checked and nothing fails. *)
Definition weighted_overlay (w : weights)
  (slope_score aspect_score solar_score distance_score : raster)
  (mask_path : option (list (list bool))) : result raster :=
  let suitability :=
    weighted_sum w slope_score aspect_score solar_score distance_score in
  match mask_path with
  | Some mask => Ok (ExtractByMask suitability mask)
  | None => Ok suitability
  end.

(** The literals of the script. *)
Definition script_weights : weights := mkWeights 0.3 0.2 0.4 0.1.

Definition calculate_suitability
  (slope_score aspect_score solar_score distance_score : raster)
  (mask_path : option (list (list bool))) : result raster :=
  weighted_overlay script_weights
    slope_score aspect_score solar_score distance_score mask_path.

(** ** Zones *)

(** Modelled from the spec: the operator [>=] on an arcpy raster and
    [Con] are not part of the script.  Section 4.5, step 1: a cell
    qualifies when it holds data and its value reaches the threshold.
    [suitability >= threshold] is 1 where the comparison holds, 0 where
    it does not, and without data where the surface has none. *)
Definition raster_ge (g : raster) (threshold : Q) : raster :=
  grid_map (fun c => match c with
                     | Some v => Some (if Qleb threshold v then 1 else 0)
                     | None => None
                     end) g.

(** [Con(condition, true_value)] without a false value: the cells where
    the condition is 0 or has no data get no data. *)
Definition Con (condition : raster) (true_value : Q) : raster :=
  grid_map (fun c => match c with
                     | Some b => if Qeq_bool b 0 then None else Some true_value
                     | None => None
                     end) condition.

Definition coord : Type := (nat * nat)%type.

(** The cells of a raster that hold data, in row-major order. *)
Definition data_cells (g : raster) : list coord :=
  flat_map (fun rcv => match rcv with
                       | (row, col, Some _) => [(row, col)]
                       | (_, _, None) => []
                       end) (grid_cells g).

(** Edge-adjacent cells: same row and neighbouring columns, or same
    column and neighbouring rows. *)
Definition adjacent4 (a b : coord) : bool :=
  ((fst a =? fst b)%nat && ((S (snd a) =? snd b)%nat || (S (snd b) =? snd a)%nat))
  || ((snd a =? snd b)%nat && ((S (fst a) =? fst b)%nat || (S (fst b) =? fst a)%nat)).

(** Grows a region by the remaining cells that touch it, until none does. *)
Fixpoint grow (fuel : nat) (region rest : list coord) : list coord * list coord :=
  match fuel with
  | O => (region, rest)
  | S fuel' =>
      match partition (fun c => existsb (adjacent4 c) region) rest with
      | ([], _) => (region, rest)
      | (near, far) => grow fuel' (region ++ near) far
      end
  end.

Fixpoint components (fuel : nat) (cells : list coord) : list (list coord) :=
  match fuel, cells with
  | S fuel', seed :: rest =>
      let (region, others) := grow (length rest) [seed] rest in
      region :: components fuel' others
  | _, _ => []
  end.

(** Modelled from the spec: [RasterToPolygon_conversion] belongs to arcpy.
    Section 4.5, step 2: the 4-connected components of the cells that
    hold data, each one a region, in the order of their first cell in
    row-major order. *)
Definition RasterToPolygon (g : raster) : list (list coord) :=
  let cells := data_cells g in
  components (length cells) cells.

(** Modelled from the spec: the [Area_Ha] field, [shape.area] in hectares.
    Section 3: cell count times cell size squared over 10000. *)
Definition Area_Ha (cell_size : Q) (region : list coord) : Q :=
  inject_Z (Z.of_nat (length region)) * (cell_size * cell_size) / 10000.

(** The body of [extract_best_zones], its literal 4.5 taken as
    [threshold]: the regions of the cells that reach the threshold, and
    among them those of at least [min_area_ha] hectares.  The cell size
    comes with the raster. *)
Definition extract_zones (threshold : Q) (suitability : raster)
  (cell_size min_area_ha : Q) : list (list coord) :=
  let best_zones := Con (raster_ge suitability threshold) 1 in
  let best_zones_poly := RasterToPolygon best_zones in
  filter (fun region => Qleb min_area_ha (Area_Ha cell_size region)) best_zones_poly.

Definition extract_best_zones (suitability : raster) (cell_size min_area_ha : Q)
  : list (list coord) :=
  extract_zones 4.5 suitability cell_size min_area_ha.

(** The default of [extract_best_zones]' [min_area_ha]. *)
Definition default_min_area_ha : Q := 2.


(** ** Vocabulary of the claims *)

(** A table as section 3 describes it: every range is non-empty and each
    range starts where the one before it ends. *)
Fixpoint contiguous (t : remap) : Prop :=
  match t with
  | [] => True
  | rg :: rest =>
      lo rg < hi rg /\
      match rest with
      | [] => True
      | next :: _ => hi rg == lo next
      end /\
      contiguous rest
  end.

(** The value lies in the range: between its bounds, the upper bound
    included only for the final range of a table. *)
Definition covers (final : bool) (rg : range) (v : Q) : Prop :=
  lo rg <= v /\ (if final then v <= hi rg else v < hi rg).

(** No range of the table holds the value. *)
Fixpoint outside_all (t : remap) (v : Q) : Prop :=
  match t with
  | [] => True
  | rg :: rest =>
      ~ covers (match rest with [] => true | _ :: _ => false end) rg v /\
      outside_all rest v
  end.

(** The score of a cell under a table, when every value is covered. *)
Definition score_of (t : remap) (c : cell) : cell :=
  match c with
  | Some v => remap_lookup t v
  | None => None
  end.

(** The overlay value of one cell as section 4.4 words it: the weighted
    sum of the four scores when all four are there, no data otherwise. *)
Definition weighted_cell (w : weights) (a b c d : cell) : cell :=
  match a, b, c, d with
  | Some x, Some y, Some z, Some u =>
      Some (w_slope w * x + w_aspect w * y + w_solar w * z + w_distance w * u)
  | _, _, _, _ => None
  end.

(** The weights invariant of section 3: no weight is negative and the
    weights sum to 1. *)
Definition weights_valid (w : weights) : Prop :=
  0 <= w_slope w /\ 0 <= w_aspect w /\ 0 <= w_solar w /\ 0 <= w_distance w /\
  weights_sum w == 1.


(** Every value of the raster is a score between 1 and 5. *)
Definition scores_in_range (g : raster) : Prop :=
  forall row col v, cell_at g row col = Some (Some v) -> 1 <= v /\ v <= 5.

(** The sample of section 4.3 in the specification's words: the values
    of the cells that hold data and are positive, in row-major order. *)
Definition positive_values (g : raster) : list Q :=
  flat_map (fun c : cell => match c with
                            | Some v => if Qltb 0 v then [v] else []
                            | None => []
                            end) (concat g).

(** The position of the percentile [q] among [n] order statistics. *)
Definition position (n : nat) (q : Q) : Q :=
  inject_Z (Z.of_nat n - 1) * (q / 100).

(** Linear interpolation between order statistics, in the specification's
    words: [b] is the only order statistic, or it lies on the line
    between two neighbouring order statistics, at the position of the
    percentile [q]. *)
Definition between_order_statistics (s : list Q) (q b : Q) : Prop :=
  (exists x, s = [x] /\ b == x) \/
  (exists (k : nat) (x y : Q),
      nth_error s k = Some x /\ nth_error s (S k) = Some y /\
      inject_Z (Z.of_nat k) <= position (length s) q /\
      position (length s) q <= inject_Z (Z.of_nat k) + 1 /\
      b == x + (position (length s) q - inject_Z (Z.of_nat k)) * (y - x)).

(** The table of section 4.3: the consecutive pairs of six breakpoints,
    with the scores 1 to 5 in ascending order. *)
Definition quantile_table (b0 b1 b2 b3 b4 b5 : Q) : remap :=
  [ mkRange b0 b1 1; mkRange b1 b2 2; mkRange b2 b3 3;
    mkRange b3 b4 4; mkRange b4 b5 5 ].

(** A chain of edge-adjacent cells of the set leads from the first cell
    to the second. *)
Inductive linked (cells : list coord) : coord -> coord -> Prop :=
| linked_here (a : coord) : In a cells -> linked cells a a
| linked_step (a b c : coord) :
    linked cells a b -> In c cells -> adjacent4 b c = true -> linked cells a c.

(** The cells form one 4-connected set. *)
Definition connected4 (cells : list coord) : Prop :=
  forall a b, In a cells -> In b cells -> linked cells a b.

(** The coordinates of a listed cell, and whether it holds data. *)
Definition coord_of (rcv : nat * nat * cell) : coord := (fst (fst rcv), snd (fst rcv)).

Definition has_data (rcv : nat * nat * cell) : bool :=
  match snd rcv with
  | Some _ => true
  | None => false
  end.

(** The scores of the table do not rise from one range to the next. *)
Definition descending (t : remap) : Prop :=
  StronglySorted (fun first later => new_value later <= new_value first) t.

(** * The script as it runs *)

(** ** Files, messages and the state of a run *)

(** A path is the list of its components: ['results/scores'] is the
    components [results] and [scores], and [os.path.join] appends. *)
Abbreviation path := (list string).

Definition path_eqb (p q : path) : bool :=
  if list_eq_dec string_dec p q then true else false.

(** What a path holds. *)
Inductive data : Type :=
| Directory
| RasterFile (g : raster)
| FeatureFile (zones : list (list coord))
| MapFile (layers : list (string * path))
| OtherFile.

(** The paths that exist with what they hold, the latest entry of a path
    first. *)
Abbreviation files := (list (list string * data)).

Fixpoint lookup (p : path) (fs : files) : option data :=
  match fs with
  | [] => None
  | (q, d) :: rest => if path_eqb q p then Some d else lookup p rest
  end.

Definition present (p : path) (fs : files) : bool :=
  match lookup p fs with
  | Some _ => true
  | None => false
  end.

(** A printed line or a message is a sequence of fragments, as an
    f-string builds it. *)
Inductive fragment : Type :=
| Str (s : string)
| PathText (p : path)
| ErrorText (e : error).

Abbreviation line := (list fragment).

(** The exceptions of a run: the two the script raises, the one of the
    arcpy tools, and the failures of the library calls modelled above. *)
Inductive exception : Type :=
| ValueError (message : line)
| RuntimeError (message : line)
| ExecuteError
| LibraryError (e : error).

(** [str(e)]. *)
Definition str (e : exception) : line :=
  match e with
  | ValueError message => message
  | RuntimeError message => message
  | ExecuteError => []
  | LibraryError e => [ErrorText e]
  end.

Record world : Type := mkWorld {
  fs : files;
  env_workspace : option path;
  env_overwriteOutput : bool;
  spatial_extension : string;
  spatial_checked_out : bool;
  stdout : list line
}.

(** What the script takes from arcpy and from the clock.  A tool gets
    what its input path holds and returns a raster or raises. *)
Record toolbox : Type := mkToolbox {
  Slope : option data -> raster + exception;
  Aspect : option data -> raster + exception;
  AreaSolarRadiation : option data -> Q -> raster + exception;
  EucDistance : option data -> Q -> raster + exception;
  Hillshade : option data -> raster + exception;
  meanCellHeight : option data -> Q;
  spatialReference_name : option data -> string;
  mask_cells : option data -> list (list bool);
  solar_nodata : Q;
  cell_size : Q;
  map_layers : list (string * path) -> unit + exception;
  now : string;
  GetMessages : line
}.

(** A procedure changes the state and returns a value or raises; what it
    did before raising stays done. *)
Definition io (A : Type) : Type := world -> (A + exception) * world.

Definition ret {A : Type} (a : A) : io A := fun w => (inl a, w).

Definition raise {A : Type} (e : exception) : io A := fun w => (inr e, w).

Definition io_bind {A B : Type} (m : io A) (k : A -> io B) : io B :=
  fun w =>
    match m w with
    | (inl a, w') => k a w'
    | (inr e, w') => (inr e, w')
    end.

Notation "x <-- m ;; k" := (io_bind m (fun x => k))
  (at level 61, m at next level, right associativity).
Notation "m ;;; k" := (io_bind m (fun _ => k))
  (at level 61, right associativity).

Definition set_fs (w : world) (f : files) : world :=
  mkWorld f (env_workspace w) (env_overwriteOutput w)
          (spatial_extension w) (spatial_checked_out w) (stdout w).

Definition print (l : line) : io unit :=
  fun w => (inl tt, mkWorld (fs w) (env_workspace w) (env_overwriteOutput w)
                            (spatial_extension w) (spatial_checked_out w)
                            (stdout w ++ [l])).

(** [os.path.exists] and [arcpy.Exists]. *)
Definition path_exists (p : path) : io bool :=
  fun w => (inl (present p (fs w)), w).

Definition read (p : path) : io (option data) :=
  fun w => (inl (lookup p (fs w)), w).

(** [raster.save(path)] and the tools that write their output: the path
    holds the data from then on. *)
Definition save (p : path) (d : data) : io unit :=
  fun w => (inl tt, set_fs w ((p, d) :: fs w)).

Definition mkdir (f : files) (p : path) : files :=
  if present p f then f else (p, Directory) :: f.

(** [os.makedirs(path)]: the directory and the directories above it that
    do not exist yet, from the top down. *)
Definition makedirs (p : path) : io unit :=
  fun w => (inl tt,
            set_fs w (fold_left mkdir (map (fun n => firstn n p) (seq 1 (length p)))
                                (fs w))).

(** The result of a tool, and of a library call modelled above. *)
Definition tool {A : Type} (r : A + exception) : io A :=
  fun w => (r, w).

Definition library {A : Type} (r : result A) : io A :=
  match r with
  | Ok a => ret a
  | Err e => raise (LibraryError e)
  end.

Fixpoint for_each {A : Type} (l : list A) (body : A -> io unit) : io unit :=
  match l with
  | [] => ret tt
  | x :: l' => body x ;;; for_each l' body
  end.

(** A path given as an optional argument counts when it is there and not
    empty. *)
Definition given (mask_path : option path) : bool :=
  match mask_path with
  | Some (_ :: _) => true
  | _ => false
  end.

(** ** The functions of the script *)

Definition setup_environment (workspace_path : path) : io unit :=
  print [Str "Setting up environment..."] ;;;
  found <-- path_exists workspace_path ;;
  (if negb found
   then raise (ValueError [Str "Workspace path does not exist: ";
                           PathText workspace_path])
   else ret tt) ;;;
  (fun w => (inl tt, mkWorld (fs w) (Some workspace_path) true
                             (spatial_extension w) (spatial_checked_out w)
                             (stdout w))) ;;;
  (fun w => if String.eqb (spatial_extension w) "Available"
            then (inl tt, mkWorld (fs w) (env_workspace w) (env_overwriteOutput w)
                                  (spatial_extension w) true (stdout w))
            else (inr (RuntimeError [Str "Spatial Analyst license is not available"]),
                  w)) ;;;
  for_each [["results"]; ["results"; "scores"]; ["results"; "output_zones"]]%string
    (fun directory =>
       let dir_path := workspace_path ++ directory in
       found <-- path_exists dir_path ;;
       if negb found then makedirs dir_path else ret tt).

Definition check_input_data (tb : toolbox)
  (dem_path roads_path : path) (mask_path : option path) : io unit :=
  print [Str "Checking input data..."] ;;;
  found <-- path_exists dem_path ;;
  (if negb found
   then raise (ValueError [Str "DEM file not found: "; PathText dem_path])
   else ret tt) ;;;
  found <-- path_exists roads_path ;;
  (if negb found
   then raise (ValueError [Str "Roads file not found: "; PathText roads_path])
   else ret tt) ;;;
  dem <-- read dem_path ;;
  roads <-- read roads_path ;;
  let dem_sr := spatialReference_name tb dem in
  let roads_sr := spatialReference_name tb roads in
  (if negb (String.eqb dem_sr roads_sr)
   then print [Str "Warning: Different projections detected!"] ;;;
        print [Str "DEM: "; Str dem_sr] ;;;
        print [Str "Roads: "; Str roads_sr]
   else ret tt) ;;;
  match mask_path with
  | Some mask =>
      found <-- path_exists mask ;;
      if given mask_path && negb found
      then raise (ValueError [Str "Mask file not found: "; PathText mask])
      else ret tt
  | None => ret tt
  end.

(** [calculate_slope] as the script runs it, from the path of the
    terrain model. *)
Definition calculate_slope_stage (tb : toolbox) (dem_path output_dir : path)
  : io raster :=
  print [Str "Processing slope..."] ;;;
  dem <-- read dem_path ;;
  slope <-- tool (Slope tb dem) ;;
  save (output_dir ++ ["slope.tif"%string]) (RasterFile slope) ;;;
  slope_reclass <-- library (calculate_slope slope) ;;
  save (output_dir ++ ["scores"; "slope_score.tif"]%string) (RasterFile slope_reclass) ;;;
  ret slope_reclass.

Definition calculate_aspect_stage (tb : toolbox) (dem_path output_dir : path)
  : io raster :=
  print [Str "Processing aspect..."] ;;;
  dem <-- read dem_path ;;
  aspect <-- tool (Aspect tb dem) ;;
  save (output_dir ++ ["aspect.tif"%string]) (RasterFile aspect) ;;;
  aspect_reclass <-- library (calculate_aspect aspect) ;;
  save (output_dir ++ ["scores"; "aspect_score.tif"]%string) (RasterFile aspect_reclass) ;;;
  ret aspect_reclass.

Definition calculate_solar_radiation_stage (tb : toolbox)
  (dem_path output_dir : path) (latitude : Q) : io raster :=
  print [Str "Processing solar radiation..."] ;;;
  dem <-- read dem_path ;;
  solar <-- tool (AreaSolarRadiation tb dem latitude) ;;
  save (output_dir ++ ["solar.tif"%string]) (RasterFile solar) ;;;
  solar_reclass <-- library (calculate_solar_radiation (solar_nodata tb) solar) ;;
  save (output_dir ++ ["scores"; "solar_score.tif"]%string) (RasterFile solar_reclass) ;;;
  ret solar_reclass.

Definition calculate_distance_to_roads_stage (tb : toolbox)
  (roads_path dem_path output_dir : path) : io raster :=
  print [Str "Processing distance to roads..."] ;;;
  dem <-- read dem_path ;;
  let cell_size := meanCellHeight tb dem in
  roads <-- read roads_path ;;
  distance <-- tool (EucDistance tb roads cell_size) ;;
  save (output_dir ++ ["distance_to_roads.tif"%string]) (RasterFile distance) ;;;
  distance_reclass <-- library (calculate_distance_to_roads distance) ;;
  save (output_dir ++ ["scores"; "distance_score.tif"]%string)
       (RasterFile distance_reclass) ;;;
  ret distance_reclass.

Definition calculate_suitability_stage (tb : toolbox)
  (slope_score aspect_score solar_score distance_score : raster)
  (output_dir : path) (mask_path : option path) : io raster :=
  print [Str "Calculating final suitability..."] ;;;
  mask <-- match mask_path with
           | Some p => if given mask_path
                       then (d <-- read p ;; ret (Some (mask_cells tb d)))
                       else ret None
           | None => ret None
           end ;;
  suitability <-- library (calculate_suitability slope_score aspect_score
                             solar_score distance_score mask) ;;
  save (output_dir ++ ["suitability.tif"%string]) (RasterFile suitability) ;;;
  ret suitability.

(** [extract_best_zones] as the script runs it: the arcpy tools of the
    conversion and of the selection are taken by their results, and the
    function returns the path of the selected zones. *)
Definition extract_best_zones_stage (tb : toolbox)
  (suitability : raster) (output_dir : path) (min_area_ha : Q) : io path :=
  print [Str "Extracting best zones..."] ;;;
  let best_zones := Con (raster_ge suitability 4.5) 1 in
  save (output_dir ++ ["output_zones"; "best_zones.tif"]%string) (RasterFile best_zones) ;;;
  let best_zones_poly := output_dir ++ ["output_zones"; "best_zones.shp"]%string in
  save best_zones_poly (FeatureFile (RasterToPolygon best_zones)) ;;;
  let final_zones := output_dir ++ ["output_zones"; "selected_zones.shp"]%string in
  save final_zones
       (FeatureFile (extract_best_zones suitability (cell_size tb) min_area_ha)) ;;;
  ret final_zones.

Definition create_hillshade_map (tb : toolbox)
  (dem_path final_zones output_dir : path) : io unit :=
  print [Str "Creating hillshade and final map..."] ;;;
  dem <-- read dem_path ;;
  hillshade <-- tool (Hillshade tb dem) ;;
  save (output_dir ++ ["hillshade.tif"%string]) (RasterFile hillshade) ;;;
  let layers_to_add :=
    [ ("Hillshade"%string, output_dir ++ ["hillshade.tif"%string]);
      ("Suitability"%string, output_dir ++ ["suitability.tif"%string]);
      ("Best Zones"%string, final_zones) ] in
  tool (map_layers tb layers_to_add) ;;;
  let timestamp := now tb in
  save (output_dir ++ [("solar_suitability_" ++ timestamp ++ ".mxd")%string])
       (MapFile layers_to_add) ;;;
  save (output_dir ++ [("solar_suitability_" ++ timestamp ++ ".pdf")%string])
       (MapFile layers_to_add).

(** The paths and the defaults of [main]. *)
Definition workspace : path := ["E:"; "solar_suitability_project"]%string.
Definition dem_path : path := workspace ++ ["data"; "dem.tif"]%string.
Definition roads_path : path := workspace ++ ["data"; "roads.shp"]%string.
Definition output_dir : path := workspace ++ ["results"%string].
Definition default_latitude : Q := 48.5.

(** The body of the [try] of [main]. *)
Definition main_try (tb : toolbox) : io unit :=
  let mask_path : option path := None in
  setup_environment workspace ;;;
  check_input_data tb dem_path roads_path mask_path ;;;
  slope_score <-- calculate_slope_stage tb dem_path output_dir ;;
  aspect_score <-- calculate_aspect_stage tb dem_path output_dir ;;
  solar_score <-- calculate_solar_radiation_stage tb dem_path output_dir
                    default_latitude ;;
  distance_score <-- calculate_distance_to_roads_stage tb roads_path dem_path
                       output_dir ;;
  suitability <-- calculate_suitability_stage tb slope_score aspect_score
                    solar_score distance_score output_dir mask_path ;;
  final_zones <-- extract_best_zones_stage tb suitability output_dir
                    default_min_area_ha ;;
  create_hillshade_map tb dem_path final_zones output_dir ;;;
  print [Str "✅ Analysis completed successfully!"].

(** [arcpy.CheckInExtension("Spatial")]. *)
Definition CheckInExtension (w : world) : world :=
  mkWorld (fs w) (env_workspace w) (env_overwriteOutput w)
          (spatial_extension w) false (stdout w).

(** [main]: the [try], its two handlers and its [finally]. *)
Definition main (tb : toolbox) : io unit :=
  fun w =>
    let (outcome, w1) := main_try tb w in
    let handled :=
      match outcome with
      | inl _ => (inl tt, w1)
      | inr ExecuteError =>
          (print [Str "ArcGIS error occurred:"] ;;; print (GetMessages tb)) w1
      | inr e => print (Str "An error occurred: " :: str e) w1
      end in
    (fst handled, CheckInExtension (snd handled)).


(** ** Vocabulary of the properties of a run *)

(** Every path keeps what it holds. *)
Definition keeps (f f' : files) : Prop :=
  forall p d, lookup p f = Some d -> lookup p f' = Some d.

(** No path disappears. *)
Definition grows (f f' : files) : Prop :=
  forall p, present p f = true -> present p f' = true.

(** A path that exists lies in directories that exist: every path above
    it exists. *)
Definition closed (f : files) : Prop :=
  forall p n, present p f = true -> (1 <= n <= length p)%nat ->
              present (firstn n p) f = true.

(** The path is the given one or lies above it. *)
Definition above (p q : path) : Prop := exists rest, q = p ++ rest.

(** What a procedure guarantees from a state that satisfies [P]: [Q] of
    its value and final state when it returns, [E] of its final state
    when it raises. *)
Definition guarantees {A : Type} (P : world -> Prop) (m : io A)
  (Q : A -> world -> Prop) (E : world -> Prop) : Prop :=
  forall w, P w ->
            match m w with
            | (inl a, w') => Q a w'
            | (inr _, w') => E w'
            end.

(** The state of a run once the output directories are there: no path
    of the start has disappeared, every path lies in directories that
    exist, and the output directory holds [scores] and [output_zones]. *)
Definition ready (start : files) (out : path) (w : world) : Prop :=
  grows start (fs w) /\ closed (fs w) /\
  present out (fs w) = true /\
  present (out ++ ["scores"%string]) (fs w) = true /\
  present (out ++ ["output_zones"%string]) (fs w) = true.

(** The procedure keeps [P], whether it returns or raises. *)
Definition maintains {A : Type} (P : world -> Prop) (m : io A) : Prop :=
  guarantees P m (fun _ => P) P.

(** A toolbox whose tools return small rasters, for examples. *)
Definition sample_toolbox : toolbox :=
  mkToolbox (fun _ => inl [[Some 3; Some 12]])
            (fun _ => inl [[Some 180; Some 20]])
            (fun _ _ => inl [[Some 900; Some 400]])
            (fun _ _ => inl [[Some 100; Some 2500]])
            (fun _ => inl [[Some 200; Some 90]])
            (fun _ => 100)
            (fun d => match d with
                      | Some (RasterFile _) => "WGS_1984_UTM_Zone_35N"
                      | _ => "GCS_WGS_1984"
                      end%string)
            (fun _ => [[true; true]])
            (-9999) 100
            (fun _ => inl tt)
            "20240101_1200"%string
            [Str "ERROR 000732"].

(** A state in which the workspace and the two inputs of [main] exist
    and the extension is available, for examples. *)
Definition sample_world : world :=
  mkWorld [(roads_path, OtherFile);
           (dem_path, RasterFile [[Some 310; Some 320]]);
           (workspace ++ ["data"%string], Directory);
           (workspace, Directory);
           (["E:"%string], Directory)]
          None false "Available" false [].

(** * Properties *)

(** ** Comparisons *)

Lemma Qleb_le (x y : Q) : Qleb x y = true <-> x <= y.
Proof. apply Qle_bool_iff. Qed.

Lemma Qleb_gt (x y : Q) : Qleb x y = false <-> y < x.
Proof.
  unfold Qleb. split; intro H.
  - apply Qnot_le_lt. intro Hle. apply Qle_bool_iff in Hle. congruence.
  - destruct (Qle_bool x y) eqn:E; [|reflexivity].
    apply Qle_bool_iff in E. exfalso. lra.
Qed.

Lemma Qltb_lt (x y : Q) : Qltb x y = true <-> x < y.
Proof.
  unfold Qltb. rewrite negb_true_iff. apply (Qleb_gt y x).
Qed.

Lemma Qltb_ge (x y : Q) : Qltb x y = false <-> y <= x.
Proof.
  unfold Qltb. rewrite negb_false_iff. apply Qle_bool_iff.
Qed.


(** ** Traversals *)

Section Traverse.
Context {A B : Type}.

Lemma traverse_map {C : Type} (f : A -> result B) (g : C -> A) (l : list C) :
  traverse f (map g l) = traverse (fun x => f (g x)) l.
Proof.
  induction l as [|x l IH]; simpl; [reflexivity|].
  rewrite IH. reflexivity.
Qed.

Variable f : nat -> A -> result B.

(** When every element succeeds, so does the traversal, element by element. *)
Lemma traverse_index_ok (l : list A) :
  forall s,
    (forall i x, nth_error l i = Some x -> exists y, f (s + i) x = Ok y) ->
    exists ys,
      traverse (at_index f) (index_from s l) = Ok ys /\
      length ys = length l /\
      forall i x, nth_error l i = Some x ->
                  exists y, f (s + i) x = Ok y /\ nth_error ys i = Some y.
Proof.
  induction l as [|x l IH]; intros s H.
  - exists []. simpl. repeat split; try reflexivity.
    intros i x Hi. destruct i; discriminate.
  - destruct (H 0%nat x eq_refl) as [y Hy].
    destruct (IH (S s)) as [ys [Hys [Hlen Hnth]]].
    { intros i x' Hi. specialize (H (S i) x' Hi).
      rewrite Nat.add_succ_r in H. exact H. }
    exists (y :: ys). simpl. unfold at_index at 1. simpl.
    rewrite Nat.add_0_r in Hy. rewrite Hy. simpl. rewrite Hys. simpl.
    repeat split; [congruence|].
    intros [|i] x' Hi; simpl in *.
    + inversion Hi; subst. exists y. rewrite Nat.add_0_r. auto.
    + rewrite Nat.add_succ_r. apply Hnth. exact Hi.
Qed.

(** When some element fails, the traversal fails at the first such element. *)
Lemma traverse_index_err (l : list A) :
  forall s i x e,
    nth_error l i = Some x -> f (s + i) x = Err e ->
    exists j x' e',
      (j <= i)%nat /\ nth_error l j = Some x' /\ f (s + j) x' = Err e' /\
      traverse (at_index f) (index_from s l) = Err e'.
Proof.
  induction l as [|x0 l IH]; intros s i x e Hi He.
  - destruct i; discriminate.
  - simpl. unfold at_index at 1. simpl.
    destruct (f s x0) as [y|e0] eqn:E0.
    + destruct i as [|i]; simpl in Hi.
      * inversion Hi; subst. rewrite Nat.add_0_r in He. congruence.
      * rewrite Nat.add_succ_r in He.
        destruct (IH (S s) i x e Hi He) as [j [x' [e' [Hj [Hn [Hf Ht]]]]]].
        exists (S j), x', e'. simpl. rewrite Ht. rewrite Nat.add_succ_r.
        repeat split; auto. lia.
    + exists 0%nat, x0, e0. simpl. rewrite Nat.add_0_r.
      repeat split; auto. lia.
Qed.

(** A failed traversal failed at one of its elements. *)
Lemma traverse_index_fails (l : list A) :
  forall s e,
    traverse (at_index f) (index_from s l) = Err e ->
    exists j x, nth_error l j = Some x /\ f (s + j) x = Err e.
Proof.
  induction l as [|x0 l IH]; intros s e H; [discriminate|].
  simpl in H. unfold at_index at 1 in H. simpl in H.
  destruct (f s x0) as [y|e0] eqn:E0; simpl in H.
  - destruct (traverse (at_index f) (index_from (S s) l)) as [ys|e1] eqn:E1;
      simpl in H; [discriminate|].
    inversion H; subst e1.
    destruct (IH (S s) e E1) as [j [x [Hj Hf]]].
    exists (S j), x. rewrite Nat.add_succ_r. auto.
  - inversion H; subst e0. exists 0%nat, x0. rewrite Nat.add_0_r. auto.
Qed.
End Traverse.

(** ** Grids *)

Lemma cell_at_row {A : Type} (g : list (list A)) (row col : nat) (x : A) :
  cell_at g row col = Some x <->
  exists line, nth_error g row = Some line /\ nth_error line col = Some x.
Proof.
  unfold cell_at. split.
  - destruct (nth_error g row) as [line|]; [|discriminate].
    intros H. exists line. auto.
  - intros [line [Hr Hc]]. rewrite Hr. exact Hc.
Qed.

(** ** Reclassification *)

Lemma remap_lookup_cons (rg next : range) (rest : remap) (v : Q) :
  remap_lookup (rg :: next :: rest) v =
  if Qleb (lo rg) v && Qltb v (hi rg) then Some (new_value rg)
  else remap_lookup (next :: rest) v.
Proof. reflexivity. Qed.

Lemma contiguous_tail (rg : range) (t : remap) :
  contiguous (rg :: t) -> contiguous t.
Proof. simpl. tauto. Qed.

(** In a contiguous table the ranges after the first start at or above
    the first one's upper bound. *)
Lemma contiguous_above (t : remap) :
  forall rg k later,
    contiguous (rg :: t) -> nth_error t k = Some later -> hi rg <= lo later.
Proof.
  induction t as [|next t IH]; intros rg k later Hc Hk.
  - destruct k; discriminate.
  - destruct Hc as [Hlt [Heq Hc]].
    destruct k as [|k]; simpl in Hk.
    + inversion Hk; subst. lra.
    + specialize (IH next k later Hc Hk).
      destruct Hc as [Hlt' _]. lra.
Qed.

(** A value between the bounds of a range of a contiguous table gets
    that range's score; the upper bound counts for the final range. *)
Lemma remap_lookup_contiguous (t : remap) :
  forall k rg v,
    contiguous t -> nth_error t k = Some rg ->
    lo rg <= v ->
    (v < hi rg \/ (S k = length t /\ v <= hi rg)) ->
    remap_lookup t v = Some (new_value rg).
Proof.
  induction t as [|rg0 t IH]; intros k rg v Hc Hk Hlo Hhi.
  - destruct k; discriminate.
  - destruct k as [|k]; simpl in Hk.
    + inversion Hk; subst rg0. destruct t as [|next t].
      * simpl. destruct Hhi as [Hhi|[_ Hhi]];
          apply Qleb_le in Hlo as ->;
          (assert (Hle : v <= hi rg) by lra); apply Qleb_le in Hle as ->;
          reflexivity.
      * rewrite remap_lookup_cons. destruct Hhi as [Hhi|[Hlen _]].
        -- apply Qleb_le in Hlo as ->. apply Qltb_lt in Hhi as ->. reflexivity.
        -- simpl in Hlen. lia.
    + destruct t as [|next t]; [destruct k; discriminate|].
      rewrite remap_lookup_cons.
      assert (Habove : hi rg0 <= lo rg) by (eapply contiguous_above; eauto).
      assert (Hge : hi rg0 <= v) by lra.
      apply Qltb_ge in Hge as ->. rewrite andb_false_r.
      apply (IH k rg v); auto.
      * eapply contiguous_tail; eauto.
      * destruct Hhi as [Hhi|[Hlen Hhi]]; [left; exact Hhi|right].
        split; [simpl in *; lia|exact Hhi].
Qed.

Lemma remap_lookup_outside (t : remap) (v : Q) :
  outside_all t v -> remap_lookup t v = None.
Proof.
  induction t as [|rg t IH]; intros H; [reflexivity|].
  destruct H as [Hrg Hrest]. destruct t as [|next t].
  - simpl. unfold covers in Hrg.
    destruct (Qleb (lo rg) v) eqn:E1; [|reflexivity].
    destruct (Qleb v (hi rg)) eqn:E2; [|reflexivity].
    apply Qleb_le in E1. apply Qleb_le in E2. tauto.
  - rewrite remap_lookup_cons. unfold covers in Hrg.
    destruct (Qleb (lo rg) v) eqn:E1; simpl; [|auto].
    destruct (Qltb v (hi rg)) eqn:E2; [|auto].
    apply Qleb_le in E1. apply Qltb_lt in E2. tauto.
Qed.

Lemma remap_lookup_none (t : remap) (v : Q) :
  remap_lookup t v = None -> outside_all t v.
Proof.
  induction t as [|rg t IH]; intros H; [exact I|].
  destruct t as [|next t].
  - simpl in H. split; [|exact I]. unfold covers. intros [H1 H2].
    apply Qleb_le in H1. apply Qleb_le in H2. rewrite H1, H2 in H. discriminate.
  - rewrite remap_lookup_cons in H. split.
    + unfold covers. intros [H1 H2].
      apply Qleb_le in H1. apply Qltb_lt in H2. rewrite H1, H2 in H. discriminate.
    + apply IH. destruct (Qleb (lo rg) v && Qltb v (hi rg)); [discriminate|exact H].
Qed.

Lemma below_all_outside (t : remap) (v : Q) :
  (forall rg, In rg t -> v < lo rg) -> outside_all t v.
Proof.
  induction t as [|rg t IH]; intros H; [exact I|].
  split.
  - intros [Hlo _]. specialize (H rg (or_introl eq_refl)). lra.
  - apply IH. intros rg' Hin. apply H. right. exact Hin.
Qed.

Lemma reclassify_row_eq (t : remap) (row : nat) (line : list cell) :
  reclassify_row t row line =
  traverse (at_index (fun col c => reclassify_cell t (row, col, c))) (index_from 0 line).
Proof.
  unfold reclassify_row, row_cells. rewrite traverse_map. reflexivity.
Qed.

(** A row whose values are all covered is reclassified cell by cell. *)
Lemma reclassify_row_ok (t : remap) (row : nat) (line : list cell) :
  (forall col v, nth_error line col = Some (Some v) -> remap_lookup t v <> None) ->
  exists scores,
    reclassify_row t row line = Ok scores /\
    length scores = length line /\
    forall col c, nth_error line col = Some c ->
                  nth_error scores col = Some (score_of t c).
Proof.
  intros Hcov. rewrite reclassify_row_eq.
  destruct (traverse_index_ok (fun col c => reclassify_cell t (row, col, c)) line 0%nat)
    as [scores [Hs [Hlen Hnth]]].
  - intros col c Hc. simpl. destruct c as [v|]; simpl; [|eauto].
    destruct (remap_lookup t v) eqn:E; [eauto|].
    exfalso. exact (Hcov col v Hc E).
  - exists scores. split; [exact Hs|]. split; [exact Hlen|].
    intros col c Hc. destruct (Hnth col c Hc) as [y [Hy Hyn]].
    rewrite Hyn. simpl in Hy. destruct c as [v|]; simpl in *; [|congruence].
    destruct (remap_lookup t v); congruence.
Qed.

(** When every value of the raster is covered, [Reclassify] gives the
    raster of the scores. *)
Lemma Reclassify_ok (g : raster) (t : remap) :
  (forall row col v, cell_at g row col = Some (Some v) -> remap_lookup t v <> None) ->
  exists out,
    Reclassify g t = Ok out /\
    forall row col, cell_at out row col = option_map (score_of t) (cell_at g row col).
Proof.
  intros Hcov.
  assert (Hrows : forall row line,
             nth_error g row = Some line ->
             forall col v, nth_error line col = Some (Some v) ->
                           remap_lookup t v <> None).
  { intros row line Hrow col v Hc. apply (Hcov row col v).
    apply cell_at_row. eauto. }
  unfold Reclassify.
  destruct (traverse_index_ok (reclassify_row t) g 0%nat) as [out [Hout [Hlen Hnth]]].
  - intros row line Hrow. simpl.
    destruct (reclassify_row_ok t row line (Hrows row line Hrow)) as [scores [Hs _]].
    eauto.
  - exists out. split; [exact Hout|].
    intros row col. unfold cell_at.
    destruct (nth_error g row) as [line|] eqn:Hrow.
    + destruct (Hnth row line Hrow) as [scores [Hs Hor]]. simpl in Hs.
      rewrite Hor.
      destruct (reclassify_row_ok t row line (Hrows row line Hrow))
        as [scores' [Hs' [Hl Hcells]]].
      rewrite Hs in Hs'. inversion Hs'; subst scores'.
      destruct (nth_error line col) as [c|] eqn:Hc.
      * rewrite (Hcells col c Hc). reflexivity.
      * simpl. apply nth_error_None. rewrite Hl. apply nth_error_None. exact Hc.
    + destruct (nth_error out row) eqn:Eo; [|reflexivity].
      exfalso. apply nth_error_None in Hrow.
      assert (Hsome : nth_error out row <> None) by congruence.
      apply nth_error_Some in Hsome. lia.
Qed.

(** When some value of the raster is not covered, [Reclassify] fails and
    names such a value with its cell. *)
Lemma Reclassify_err (g : raster) (t : remap) (row col : nat) (v : Q) :
  cell_at g row col = Some (Some v) -> remap_lookup t v = None ->
  exists v' row' col',
    Reclassify g t = Err (OutOfRangeError v' row' col') /\
    cell_at g row' col' = Some (Some v') /\ remap_lookup t v' = None.
Proof.
  intros Hcell Hnone. apply cell_at_row in Hcell as [line [Hrow Hcol]].
  assert (Hline : exists e, reclassify_row t row line = Err e).
  { rewrite reclassify_row_eq.
    destruct (traverse_index_err (fun col c => reclassify_cell t (row, col, c))
                line 0%nat col (Some v) (OutOfRangeError v row col) Hcol)
      as [j [x' [e' [_ [_ [_ Ht]]]]]]; [simpl; rewrite Hnone; reflexivity|].
    eauto. }
  destruct Hline as [e He].
  destruct (traverse_index_err (reclassify_row t) g 0%nat row line e Hrow He)
    as [row' [line' [e' [_ [Hrow' [He' Ht]]]]]].
  simpl in He'. unfold Reclassify. rewrite Ht.
  rewrite reclassify_row_eq in He'.
  destruct (traverse_index_fails _ _ _ _ He') as [col' [c' [Hc' Hf]]].
  simpl in Hf. destruct c' as [v'|]; simpl in Hf; [|discriminate].
  destruct (remap_lookup t v') eqn:E; [discriminate|].
  inversion Hf; subst e'.
  exists v', row', col'. repeat split; auto.
  apply cell_at_row. eauto.
Qed.

Lemma contiguous_nonempty (t : remap) :
  forall k rg, contiguous t -> nth_error t k = Some rg -> lo rg < hi rg.
Proof.
  induction t as [|r0 t IH]; intros k rg Hc Hk.
  - destruct k; discriminate.
  - destruct k as [|k]; simpl in Hk.
    + inversion Hk; subst r0. destruct Hc as [Hlt _]. exact Hlt.
    + apply (IH k rg); [eapply contiguous_tail; eauto|exact Hk].
Qed.

Lemma contiguous_next (t : remap) :
  forall k below rg,
    contiguous t -> nth_error t k = Some below -> nth_error t (S k) = Some rg ->
    hi below == lo rg.
Proof.
  induction t as [|r0 t IH]; intros k below rg Hc Hb Hk.
  - destruct k; discriminate.
  - destruct k as [|k]; simpl in Hb, Hk.
    + inversion Hb; subst r0. destruct t as [|r1 t]; [discriminate|].
      simpl in Hk. inversion Hk; subst r1. destruct Hc as [_ [Heq _]]. exact Heq.
    + apply (IH k below rg); [eapply contiguous_tail; eauto|exact Hb|exact Hk].
Qed.

Lemma slope_remap_contiguous : contiguous slope_remap.
Proof. simpl. repeat split; reflexivity. Qed.

Lemma slope_lookup (v : Q) :
  0 <= v -> v <= 90 ->
  exists s, remap_lookup slope_remap v = Some s /\ In s [1; 2; 3; 4; 5].
Proof.
  intros H0 H90.
  pose proof slope_remap_contiguous as Hc.
  destruct (Qlt_le_dec v 5) as [H5|H5].
  { exists 5. split; [|simpl; tauto].
    apply (remap_lookup_contiguous slope_remap 0 (mkRange 0 5 5) v Hc eq_refl); simpl; auto. }
  destruct (Qlt_le_dec v 10) as [H10|H10].
  { exists 4. split; [|simpl; tauto].
    apply (remap_lookup_contiguous slope_remap 1 (mkRange 5 10 4) v Hc eq_refl); simpl; auto. }
  destruct (Qlt_le_dec v 15) as [H15|H15].
  { exists 3. split; [|simpl; tauto].
    apply (remap_lookup_contiguous slope_remap 2 (mkRange 10 15 3) v Hc eq_refl); simpl; auto. }
  destruct (Qlt_le_dec v 20) as [H20|H20].
  { exists 2. split; [|simpl; tauto].
    apply (remap_lookup_contiguous slope_remap 3 (mkRange 15 20 2) v Hc eq_refl); simpl; auto. }
  exists 1. split; [|simpl; tauto].
  apply (remap_lookup_contiguous slope_remap 4 (mkRange 20 90 1) v Hc eq_refl); simpl; auto.
Qed.

(** C1.  [Reclassify] reads the ranges of a table as half-open and
    lower-inclusive.  In a contiguous table a value between the bounds
    of a range, the lower bound included, gets that range's score; a
    value equal to an interior boundary gets the score of the range that
    starts there; the upper bound of the final range gets the final
    range's score.  A slope of exactly 5 gets score 4 under the slope
    table. *)
Theorem reclassify_lower_inclusive (t : remap) (Hc : contiguous t) :
  (forall k rg v,
      nth_error t k = Some rg -> lo rg <= v -> v < hi rg ->
      remap_lookup t v = Some (new_value rg)) /\
  (forall k below rg v,
      nth_error t k = Some below -> nth_error t (S k) = Some rg -> v == hi below ->
      remap_lookup t v = Some (new_value rg)) /\
  (forall k rg v,
      nth_error t k = Some rg -> S k = length t -> v == hi rg ->
      remap_lookup t v = Some (new_value rg)) /\
  remap_lookup slope_remap 5 = Some 4 /\
  calculate_slope [[Some 5]] = Ok [[Some 4]].
Proof.
  split; [|split; [|split; [|split; reflexivity]]].
  - intros k rg v Hk Hlo Hhi.
    apply (remap_lookup_contiguous t k rg v); auto.
  - intros k below rg v Hb Hk Hv.
    pose proof (contiguous_next t k below rg Hc Hb Hk) as Hlo.
    pose proof (contiguous_nonempty t (S k) rg Hc Hk) as Hne.
    apply (remap_lookup_contiguous t (S k) rg v); auto; [lra|left; lra].
  - intros k rg v Hk Hlast Hv.
    pose proof (contiguous_nonempty t k rg Hc Hk) as Hne.
    apply (remap_lookup_contiguous t k rg v); auto; [lra|right; split; [auto|lra]].
Qed.

Lemma reclassify_lower_inclusive_witness :
  contiguous slope_remap /\
  remap_lookup slope_remap 10 = Some 3 /\
  remap_lookup slope_remap 90 = Some 1.
Proof.
  assert (Hc : contiguous slope_remap) by (simpl; repeat split; reflexivity).
  split; [exact Hc|].
  destruct (reclassify_lower_inclusive slope_remap Hc) as [_ [Hb [Hf _]]].
  split.
  - apply (Hb 1%nat (mkRange 5 10 4) (mkRange 10 15 3) 10); reflexivity.
  - apply (Hf 4%nat (mkRange 20 90 1) 90); reflexivity.
Defined.

(** C9.  The slope table covers the whole slope domain: when every value
    of the slope raster lies between 0 and 90, [calculate_slope] does not
    fail, a cell with a value gets one of the scores 1 to 5, and a cell
    without data stays without data. *)
Theorem slope_table_covers_domain (slope : raster)
  (Hdom : forall row col v, cell_at slope row col = Some (Some v) -> 0 <= v /\ v <= 90) :
  exists out,
    calculate_slope slope = Ok out /\
    (forall row col v,
        cell_at slope row col = Some (Some v) ->
        exists s, remap_lookup slope_remap v = Some s /\
                  cell_at out row col = Some (Some s) /\ In s [1; 2; 3; 4; 5]) /\
    (forall row col, cell_at slope row col = Some None -> cell_at out row col = Some None).
Proof.
  destruct (Reclassify_ok slope slope_remap) as [out [Hout Hcells]].
  - intros row col v Hcell Hnone.
    destruct (Hdom row col v Hcell) as [H0 H90].
    destruct (slope_lookup v H0 H90) as [s [Hs _]]. congruence.
  - exists out. split; [exact Hout|]. split.
    + intros row col v Hcell.
      destruct (Hdom row col v Hcell) as [H0 H90].
      destruct (slope_lookup v H0 H90) as [s [Hs Hin]].
      exists s. split; [exact Hs|]. split; [|exact Hin].
      rewrite Hcells, Hcell. unfold option_map, score_of. rewrite Hs. reflexivity.
    + intros row col Hcell. rewrite Hcells, Hcell. reflexivity.
Qed.

Lemma slope_table_covers_domain_witness :
  exists out,
    calculate_slope [[Some 5; None; Some 90]] = Ok out /\
    cell_at out 0 2 = Some (Some 1).
Proof.
  destruct (slope_table_covers_domain [[Some 5; None; Some 90]])
    as [out [Hout [Hval _]]].
  - intros row col v H. unfold cell_at in H.
    destruct row as [|row]; [|destruct row; discriminate].
    destruct col as [|[|[|col]]]; simpl in H;
      try discriminate; [| |destruct col; discriminate];
      inversion H; subst; split; lra.
  - exists out. split; [exact Hout|].
    destruct (Hval 0%nat 2%nat 90 eq_refl) as [s [Hs [Hc _]]].
    vm_compute in Hs. inversion Hs; subst s. exact Hc.
Defined.

(** C4.  A value that no range of the table holds, a value below every
    lower bound among them, makes [Reclassify] fail with
    [OutOfRangeError]: at the cell itself the error names that value and
    that cell, and for the whole raster it names a value that no range
    holds together with the cell it sits in.  No score and no NoData
    cell is produced instead.  A distance of 100001 under the distance
    table is such a value. *)
Theorem reclassify_out_of_range (t : remap) (g : raster) (row col : nat) (v : Q)
  (Hcell : cell_at g row col = Some (Some v))
  (Hout : outside_all t v \/ (forall rg, In rg t -> v < lo rg)) :
  reclassify_cell t (row, col, Some v) = Err (OutOfRangeError v row col) /\
  (exists v' row' col',
      Reclassify g t = Err (OutOfRangeError v' row' col') /\
      cell_at g row' col' = Some (Some v') /\ outside_all t v') /\
  calculate_distance_to_roads [[Some 100001]] = Err (OutOfRangeError 100001 0 0).
Proof.
  assert (Hout' : outside_all t v).
  { destruct Hout as [H|H]; [exact H|apply below_all_outside; exact H]. }
  pose proof (remap_lookup_outside t v Hout') as Hnone.
  split; [|split].
  - simpl. rewrite Hnone. reflexivity.
  - destruct (Reclassify_err g t row col v Hcell Hnone) as [v' [row' [col' [He [Hc Hn]]]]].
    exists v', row', col'. repeat split; auto. apply remap_lookup_none. exact Hn.
  - reflexivity.
Qed.

Lemma reclassify_out_of_range_witness :
  reclassify_cell slope_remap (0%nat, 1%nat, Some (-3)) = Err (OutOfRangeError (-3) 0 1) /\
  exists v' row' col',
    Reclassify [[Some 2; Some (-3)]] slope_remap = Err (OutOfRangeError v' row' col').
Proof.
  destruct (reclassify_out_of_range slope_remap [[Some 2; Some (-3)]] 0 1 (-3) eq_refl)
    as [Hc [[v' [row' [col' [He _]]]] _]].
  - right. intros rg Hin. simpl in Hin.
    repeat (destruct Hin as [<-|Hin]; [reflexivity|]). destruct Hin.
  - split; [exact Hc|]. exists v', row', col'. exact He.
Defined.

(** ** Cell-wise operations *)

Lemma nth_error_zip_with {A B C : Type} (f : A -> B -> C) (l : list A) :
  forall (m : list B) (i : nat),
    nth_error (zip_with f l m) i =
    match nth_error l i, nth_error m i with
    | Some x, Some y => Some (f x y)
    | _, _ => None
    end.
Proof.
  induction l as [|x l IH]; intros m i.
  - simpl. destruct i; reflexivity.
  - destruct m as [|y m]; simpl.
    + destruct i; simpl; [reflexivity|]. destruct (nth_error l i); reflexivity.
    + destruct i; simpl; [reflexivity|]. apply IH.
Qed.

Lemma cell_at_grid_map {A B : Type} (f : A -> B) (g : list (list A)) (row col : nat) :
  cell_at (grid_map f g) row col = option_map f (cell_at g row col).
Proof.
  unfold cell_at, grid_map. rewrite nth_error_map.
  destruct (nth_error g row) as [line|]; simpl; [|reflexivity].
  apply nth_error_map.
Qed.

Lemma cell_at_grid_zip {A B C : Type} (f : A -> B -> C)
  (g : list (list A)) (h : list (list B)) (row col : nat) :
  cell_at (grid_zip f g h) row col =
  match cell_at g row col, cell_at h row col with
  | Some x, Some y => Some (f x y)
  | _, _ => None
  end.
Proof.
  unfold cell_at, grid_zip. rewrite nth_error_zip_with.
  destruct (nth_error g row) as [lg|]; [|reflexivity].
  destruct (nth_error h row) as [lh|].
  - apply nth_error_zip_with.
  - destruct (nth_error lg col); reflexivity.
Qed.

(** ** Weighted overlay *)

(** The cell of the weighted sum: there when the four rasters have the
    cell, with data when the four cells have data. *)
Lemma weighted_sum_cell (w : weights) (s1 s2 s3 s4 : raster) (row col : nat) :
  cell_at (weighted_sum w s1 s2 s3 s4) row col =
  match cell_at s1 row col, cell_at s2 row col, cell_at s3 row col, cell_at s4 row col with
  | Some a, Some b, Some c, Some d => Some (weighted_cell w a b c d)
  | _, _, _, _ => None
  end.
Proof.
  unfold weighted_sum, plus, times.
  rewrite !cell_at_grid_zip, !cell_at_grid_map.
  destruct (@cell_at (option Q) s1 row col) as [[x|]|],
    (@cell_at (option Q) s2 row col) as [[y|]|],
    (@cell_at (option Q) s3 row col) as [[z|]|],
    (@cell_at (option Q) s4 row col) as [[u|]|]; reflexivity.
Qed.

Lemma weighted_overlay_cell (w : weights) (s1 s2 s3 s4 : raster)
  (mask_path : option (list (list bool))) (row col : nat) :
  exists out,
    weighted_overlay w s1 s2 s3 s4 mask_path = Ok out /\
    cell_at out row col =
    match mask_path with
    | None => cell_at (weighted_sum w s1 s2 s3 s4) row col
    | Some mask =>
        match cell_at (weighted_sum w s1 s2 s3 s4) row col, cell_at mask row col with
        | Some x, Some inside => Some (if inside then x else None)
        | _, _ => None
        end
    end.
Proof.
  unfold weighted_overlay. destruct mask_path as [mask|].
  - eexists. split; [reflexivity|]. unfold ExtractByMask.
    rewrite cell_at_grid_zip. reflexivity.
  - eexists. split; reflexivity.
Qed.

(** A weighted sum of four scores between 1 and 5 lies between 1 and 5
    when the weights are not negative and sum to 1. *)
Lemma convex_combination (w : weights) (x y z u : Q) :
  weights_valid w ->
  1 <= x <= 5 -> 1 <= y <= 5 -> 1 <= z <= 5 -> 1 <= u <= 5 ->
  1 <= w_slope w * x + w_aspect w * y + w_solar w * z + w_distance w * u <= 5.
Proof.
  unfold weights_valid, weights_sum.
  destruct w as [a b c d]; simpl.
  intros [Ha [Hb [Hc [Hd Hs]]]] Hx Hy Hz Hu. split; nra.
Qed.

(** C2, amended.  Where the four score rasters have a cell, the
    suitability raster has that cell: inside the mask, or when no mask is
    given, it holds the sum of 0.3, 0.2, 0.4 and 0.1 times the four
    scores when all four are there, and no data when one of them is
    missing; outside a given mask it holds no data.  The weights of the
    scores that are there are never rescaled into a partial sum. *)
Theorem overlay_cell_value
  (s1 s2 s3 s4 : raster) (mask_path : option (list (list bool)))
  (row col : nat) (a b c d : cell) (inside : bool)
  (H1 : cell_at s1 row col = Some a) (H2 : cell_at s2 row col = Some b)
  (H3 : cell_at s3 row col = Some c) (H4 : cell_at s4 row col = Some d)
  (Hmask : match mask_path with
           | Some mask => cell_at mask row col = Some inside
           | None => inside = true
           end) :
  exists out,
    calculate_suitability s1 s2 s3 s4 mask_path = Ok out /\
    cell_at out row col =
      Some (if inside then weighted_cell script_weights a b c d else None) /\
    (cell_at out row col = Some None <->
     inside = false \/ a = None \/ b = None \/ c = None \/ d = None) /\
    (forall x y z u,
        inside = true -> a = Some x -> b = Some y -> c = Some z -> d = Some u ->
        cell_at out row col = Some (Some (0.3 * x + 0.2 * y + 0.4 * z + 0.1 * u))).
Proof.
  unfold calculate_suitability.
  destruct (weighted_overlay_cell script_weights s1 s2 s3 s4 mask_path row col)
    as [out [Hout Hcell]].
  rewrite weighted_sum_cell, H1, H2, H3, H4 in Hcell.
  assert (Hval : cell_at out row col =
                 Some (if inside then weighted_cell script_weights a b c d else None)).
  { destruct mask_path as [mask|].
    - rewrite Hcell, Hmask. reflexivity.
    - rewrite Hcell, Hmask. reflexivity. }
  exists out. split; [exact Hout|]. split; [exact Hval|]. split.
  - rewrite Hval. destruct inside.
    + destruct a, b, c, d; simpl; split; intros H; try discriminate; auto;
        repeat (destruct H as [H|H]; try discriminate).
    + split; auto.
  - intros x y z u -> -> -> -> ->. rewrite Hval. reflexivity.
Qed.

Lemma overlay_cell_value_witness :
  exists out,
    calculate_suitability [[Some 5; Some 4]] [[Some 5; Some 3]]
                          [[Some 5; None]] [[Some 5; Some 1]]
                          (Some [[true; true]]) = Ok out /\
    cell_at out 0 0 = Some (Some (0.3 * 5 + 0.2 * 5 + 0.4 * 5 + 0.1 * 5)) /\
    cell_at out 0 1 = Some None.
Proof.
  destruct (overlay_cell_value [[Some 5; Some 4]] [[Some 5; Some 3]]
              [[Some 5; None]] [[Some 5; Some 1]] (Some [[true; true]])
              0 0 (Some 5) (Some 5) (Some 5) (Some 5) true
              eq_refl eq_refl eq_refl eq_refl eq_refl)
    as [out [Hout [Hcell _]]].
  exists out. split; [exact Hout|]. split; [exact Hcell|].
  vm_compute in Hout. inversion Hout. reflexivity.
Defined.

(** C2, as the claim states it, fails where a mask is given: the four
    scores are there and the suitability cell outside the mask holds no
    data. *)
Lemma overlay_nodata_counterexample :
  calculate_suitability [[Some 5]] [[Some 5]] [[Some 5]] [[Some 5]] (Some [[false]])
  = Ok [[None]] /\
  ~ (cell_at [[@None Q]] 0 0 = Some None <->
     (cell_at [[Some 5]] 0 0 = Some (@None Q) \/ cell_at [[Some 5]] 0 0 = Some (@None Q) \/
      cell_at [[Some 5]] 0 0 = Some (@None Q) \/ cell_at [[Some 5]] 0 0 = Some (@None Q))).
Proof.
  split; [reflexivity|].
  intros [H _]. specialize (H eq_refl).
  repeat (destruct H as [H|H]; try discriminate).
Qed.




(** C7.  With weights that are not negative and sum to 1, and four score
    rasters whose values lie between 1 and 5, every value of the
    suitability raster lies between 1 and 5, with a mask or without. *)
Theorem suitability_in_score_range
  (w : weights) (s1 s2 s3 s4 : raster) (mask_path : option (list (list bool)))
  (out : raster) (row col : nat) (v : Q)
  (Hw : weights_valid w)
  (R1 : scores_in_range s1) (R2 : scores_in_range s2)
  (R3 : scores_in_range s3) (R4 : scores_in_range s4)
  (Hout : weighted_overlay w s1 s2 s3 s4 mask_path = Ok out)
  (Hv : cell_at out row col = Some (Some v)) :
  1 <= v <= 5.
Proof.
  destruct (weighted_overlay_cell w s1 s2 s3 s4 mask_path row col) as [out' [Hout' Hcell]].
  rewrite Hout in Hout'. inversion Hout'; subst out'. clear Hout'.
  rewrite Hv, weighted_sum_cell in Hcell.
  assert (Hsum : match cell_at s1 row col, cell_at s2 row col,
                       cell_at s3 row col, cell_at s4 row col with
                 | Some a, Some b, Some c, Some d => Some (weighted_cell w a b c d)
                 | _, _, _, _ => None
                 end = Some (Some v)).
  { destruct mask_path as [mask|]; [|symmetry; exact Hcell].
    destruct (cell_at s1 row col) as [a|]; [|discriminate].
    destruct (cell_at s2 row col) as [b|]; [|discriminate].
    destruct (cell_at s3 row col) as [c|]; [|discriminate].
    destruct (cell_at s4 row col) as [d|]; [|discriminate].
    destruct (cell_at mask row col) as [[|]|]; try discriminate.
    symmetry. exact Hcell. }
  clear Hcell.
  destruct (cell_at s1 row col) as [[x|]|] eqn:E1; try discriminate;
  destruct (cell_at s2 row col) as [[y|]|] eqn:E2; try discriminate;
  destruct (cell_at s3 row col) as [[z|]|] eqn:E3; try discriminate;
  destruct (cell_at s4 row col) as [[u|]|] eqn:E4; try discriminate.
  simpl in Hsum. inversion Hsum; subst v.
  apply convex_combination; auto.
  - destruct (R1 row col x E1); auto.
  - destruct (R2 row col y E2); auto.
  - destruct (R3 row col z E3); auto.
  - destruct (R4 row col u E4); auto.
Qed.

Lemma suitability_in_score_range_witness :
  weights_valid script_weights /\
  calculate_suitability [[Some 5]] [[Some 1]] [[Some 3]] [[Some 2]] None
  = Ok [[Some (0.3 * 5 + 0.2 * 1 + 0.4 * 3 + 0.1 * 2)]] /\
  1 <= 0.3 * 5 + 0.2 * 1 + 0.4 * 3 + 0.1 * 2 <= 5.
Proof.
  assert (Hw : weights_valid script_weights).
  { unfold weights_valid, weights_sum. simpl. repeat split; lra. }
  assert (Hr : forall s : Q, 1 <= s <= 5 -> scores_in_range [[Some s]]).
  { intros s Hs row col v H. unfold cell_at in H.
    destruct row as [|row]; [|destruct row; discriminate].
    destruct col as [|col]; [|destruct col; discriminate].
    simpl in H. inversion H; subst. exact Hs. }
  split; [exact Hw|]. split; [reflexivity|].
  apply (suitability_in_score_range script_weights
           [[Some 5]] [[Some 1]] [[Some 3]] [[Some 2]] None
           [[Some (0.3 * 5 + 0.2 * 1 + 0.4 * 3 + 0.1 * 2)]] 0 0
           (0.3 * 5 + 0.2 * 1 + 0.4 * 3 + 0.1 * 2) Hw);
    try (apply Hr; lra); reflexivity.
Defined.

(** ** The sample and its order statistics *)

Lemma In_concat_cell_at {A : Type} (g : list (list A)) (x : A) :
  In x (concat g) <-> exists row col, cell_at g row col = Some x.
Proof.
  rewrite in_concat. split.
  - intros [line [Hline Hx]].
    apply In_nth_error in Hline as [row Hrow].
    apply In_nth_error in Hx as [col Hcol].
    exists row, col. apply cell_at_row. eauto.
  - intros [row [col H]]. apply cell_at_row in H as [line [Hrow Hcol]].
    exists line. split; eapply nth_error_In; eauto.
Qed.

Lemma solar_sample_positive_values (nodata_value : Q) (solar : raster) :
  nodata_value <= 0 -> solar_sample nodata_value solar = positive_values solar.
Proof.
  intros Hnd. unfold solar_sample, valid_values, RasterToNumPyArray, grid_map, positive_values.
  rewrite <- concat_map. induction (concat solar) as [|c l IH]; [reflexivity|].
  simpl. rewrite IH. destruct c as [v|].
  - destruct (Qltb 0 v); reflexivity.
  - apply Qltb_ge in Hnd as ->. reflexivity.
Qed.

Lemma In_positive_values (solar : raster) (v : Q) :
  In v (positive_values solar) <->
  exists row col, cell_at solar row col = Some (Some v) /\ 0 < v.
Proof.
  unfold positive_values. rewrite in_flat_map. split.
  - intros [c [Hc Hv]]. destruct c as [x|]; [|destruct Hv].
    destruct (Qltb 0 x) eqn:E; [|destruct Hv].
    destruct Hv as [<-|[]]. apply Qltb_lt in E.
    apply In_concat_cell_at in Hc as [row [col Hc]]. eauto.
  - intros [row [col [Hc Hv]]]. exists (Some v). split.
    + apply In_concat_cell_at. eauto.
    + apply Qltb_lt in Hv as ->. left. reflexivity.
Qed.

Lemma insert_perm (x : Q) (l : list Q) : Permutation (insert x l) (x :: l).
Proof.
  induction l as [|y l IH]; simpl; [apply Permutation_refl|].
  destruct (Qleb x y); [apply Permutation_refl|].
  eapply perm_trans; [apply perm_skip; exact IH|apply perm_swap].
Qed.

Lemma sort_perm (l : list Q) : Permutation (sort l) l.
Proof.
  induction l as [|x l IH]; simpl; [apply perm_nil|].
  eapply perm_trans; [apply insert_perm|apply perm_skip; exact IH].
Qed.

Lemma insert_sorted (x : Q) (l : list Q) :
  StronglySorted Qle l -> StronglySorted Qle (insert x l).
Proof.
  induction 1 as [|y l Hs IH Hall]; simpl.
  - constructor; constructor.
  - destruct (Qleb x y) eqn:E.
    + apply Qleb_le in E. constructor; [constructor; assumption|].
      constructor; [exact E|].
      eapply Forall_impl; [|exact Hall]. intros z Hz. simpl in Hz. lra.
    + apply Qleb_gt in E. constructor; [exact IH|].
      eapply Permutation_Forall.
      * apply Permutation_sym, insert_perm.
      * constructor; [lra|exact Hall].
Qed.

Lemma sort_sorted (l : list Q) : StronglySorted Qle (sort l).
Proof.
  induction l as [|x l IH]; simpl; [constructor|].
  apply insert_sorted. exact IH.
Qed.

Lemma sort_length (l : list Q) : length (sort l) = length l.
Proof. apply Permutation_length, sort_perm. Qed.

Lemma sorted_nth_le (s : list Q) :
  StronglySorted Qle s ->
  forall i j x y,
    (i <= j)%nat -> nth_error s i = Some x -> nth_error s j = Some y -> x <= y.
Proof.
  induction 1 as [|z s Hs IH Hall]; intros i j x y Hij Hi Hj.
  - destruct i; discriminate.
  - destruct i as [|i], j as [|j]; simpl in Hi, Hj.
    + inversion Hi; inversion Hj; subst. lra.
    + inversion Hi; subst z. rewrite Forall_forall in Hall.
      apply Hall. eapply nth_error_In; eauto.
    + lia.
    + apply (IH i j); auto. lia.
Qed.

(** ** Percentiles *)

Lemma position_bounds (n : nat) (q : Q) :
  (0 < n)%nat -> 0 <= q -> q <= 100 ->
  0 <= position n q /\ position n q <= inject_Z (Z.of_nat n - 1).
Proof.
  intros Hn H0 H100. unfold position.
  assert (HN : 0 <= inject_Z (Z.of_nat n - 1)).
  { change 0 with (inject_Z 0). rewrite <- Zle_Qle. lia. }
  assert (Ht : 0 <= q / 100 /\ q / 100 <= 1).
  { unfold Qdiv. change (/ 100) with (1 # 100). split; lra. }
  destruct Ht as [Ht0 Ht1].
  generalize dependent (q / 100). generalize dependent (inject_Z (Z.of_nat n - 1)).
  intros N HN t Ht0 Ht1. split; nra.
Qed.

Lemma position_morphism (n : nat) (q q' : Q) :
  q == q' -> position n q == position n q'.
Proof. intros E. unfold position. rewrite E. reflexivity. Qed.

Lemma between_order_statistics_morphism (s : list Q) (q q' b : Q) :
  q == q' -> between_order_statistics s q b -> between_order_statistics s q' b.
Proof.
  intros E [H|[k [x [y [Hx [Hy [H1 [H2 H3]]]]]]]]; [left; exact H|right].
  exists k, x, y. pose proof (position_morphism (length s) q q' E) as Ep.
  repeat split; auto; try lra. rewrite H3, Ep. reflexivity.
Qed.

(** On a sample that is not empty [np.percentile] returns the value
    interpolated between two neighbouring order statistics. *)
Lemma percentile_between (a : list Q) (q : Q) :
  a <> [] -> 0 <= q -> q <= 100 ->
  exists b, percentile a q = Ok b /\ between_order_statistics (sort a) q b.
Proof.
  intros Ha H0 H100. unfold percentile.
  destruct (sort a) as [|first rest] eqn:Es.
  { exfalso. apply Ha. apply length_zero_iff_nil.
    rewrite <- sort_length, Es. reflexivity. }
  set (s := first :: rest) in *.
  set (n := length s).
  assert (Hn : (0 < n)%nat) by (unfold n, s; simpl; lia).
  destruct (position_bounds n q Hn H0 H100) as [Hp0 HpN].
  fold (position n q).
  set (h := position n q) in *.
  assert (Hfl : inject_Z (Qfloor h) <= h) by apply Qfloor_le.
  assert (Hfu : h < inject_Z (Qfloor h) + 1).
  { pose proof (Qlt_floor h) as H. rewrite inject_Z_plus in H. exact H. }
  assert (Hf0 : (0 <= Qfloor h)%Z).
  { change 0%Z with (Qfloor 0). apply Qfloor_resp_le. exact Hp0. }
  assert (HfN : (Qfloor h <= Z.of_nat n - 1)%Z).
  { rewrite <- (Qfloor_Z (Z.of_nat n - 1)). apply Qfloor_resp_le. exact HpN. }
  set (k := Z.to_nat (Qfloor h)).
  assert (Hk : Z.of_nat k = Qfloor h) by (unfold k; lia).
  assert (Hkn : (k < n)%nat) by lia.
  rewrite <- Hk in Hfl, Hfu. rewrite <- Hk.
  eexists. split; [reflexivity|].
  pose proof (nth_error_nth' s first Hkn) as Hx.
  set (x := nth k s first) in *.
  destruct (Nat.eq_dec (S k) n) as [Hlast|Hmid].
  - (* the position is the last order statistic *)
    assert (Hh : h == inject_Z (Z.of_nat k)).
    { assert (E : (Z.of_nat n - 1 = Z.of_nat k)%Z) by lia.
      rewrite E in HpN. lra. }
    assert (Hmin : Nat.min (S k) (n - 1) = k) by lia.
    rewrite Hmin. fold x.
    destruct k as [|k'] eqn:Ek.
    + left. exists first. split.
      * unfold s in *. destruct rest; [reflexivity|]. unfold n in Hlast. simpl in Hlast. lia.
      * unfold x. simpl. ring.
    + right.
      assert (Hk'n : (k' < n)%nat) by lia.
      pose proof (nth_error_nth' s first Hk'n) as Hx'.
      exists k', (nth k' s first), x. 
      assert (EZ : inject_Z (Z.of_nat (S k')) == inject_Z (Z.of_nat k') + 1).
      { rewrite Nat2Z.inj_succ. unfold Z.succ. rewrite inject_Z_plus. reflexivity. }
      change (position (length s) q) with h.
      repeat split; auto; try lra.
      rewrite Hh, EZ. ring.
  - (* the position lies below the last order statistic *)
    assert (Hmin : Nat.min (S k) (n - 1) = S k) by lia.
    rewrite Hmin.
    assert (HSk : (S k < n)%nat) by lia.
    pose proof (nth_error_nth' s first HSk) as Hy.
    right. exists k, x, (nth (S k) s first).
    change (position (length s) q) with h.
    repeat split; auto; lra.
Qed.

Lemma position_zero (n : nat) (q : Q) : q == 0 -> position n q == 0.
Proof. intros E. unfold position. rewrite E. unfold Qdiv. ring. Qed.

Lemma position_hundred (n : nat) (q : Q) :
  q == 100 -> position n q == inject_Z (Z.of_nat n - 1).
Proof.
  intros E. unfold position. rewrite E. unfold Qdiv.
  assert (H : 100 * / 100 == 1) by reflexivity.
  rewrite H. ring.
Qed.

(** The percentile 0 of a sorted sample is its least element. *)
Lemma between_at_zero (s : list Q) (q b : Q) :
  StronglySorted Qle s -> q == 0 -> between_order_statistics s q b ->
  (forall x, In x s -> b <= x) /\ (exists x, In x s /\ b == x).
Proof.
  intros Hs E [[x [-> Hb]]|[k [x [y [Hx [Hy [H1 [H2 H3]]]]]]]].
  - split.
    + intros z [<-|[]]. lra.
    + exists x. split; [left; reflexivity|exact Hb].
  - pose proof (position_zero (length s) q E) as Hp.
    assert (Hk : k = 0%nat).
    { rewrite Hp in H1. change 0 with (inject_Z 0) in H1.
      rewrite <- Zle_Qle in H1. lia. }
    subst k. rewrite Hp in H3. change (inject_Z (Z.of_nat 0)) with 0 in H3.
    assert (Hbx : b == x) by (rewrite H3; ring).
    split.
    + intros z Hz. apply In_nth_error in Hz as [j Hj].
      rewrite Hbx. apply (sorted_nth_le s Hs 0 j x z); auto. lia.
    + exists x. split; [eapply nth_error_In; eauto|exact Hbx].
Qed.

(** The percentile 100 of a sorted sample is its greatest element. *)
Lemma between_at_hundred (s : list Q) (q b : Q) :
  StronglySorted Qle s -> q == 100 -> between_order_statistics s q b ->
  (forall x, In x s -> x <= b) /\ (exists x, In x s /\ b == x).
Proof.
  intros Hs E [[x [-> Hb]]|[k [x [y [Hx [Hy [H1 [H2 H3]]]]]]]].
  - split.
    + intros z [<-|[]]. lra.
    + exists x. split; [left; reflexivity|exact Hb].
  - pose proof (position_hundred (length s) q E) as Hp.
    assert (HSk : (S k < length s)%nat).
    { apply nth_error_Some. congruence. }
    assert (Hk : (Z.of_nat (length s) - 1 = Z.of_nat k + 1)%Z).
    { rewrite Hp in H2. change 1 with (inject_Z 1) in H2.
      rewrite <- inject_Z_plus in H2. rewrite <- Zle_Qle in H2. lia. }
    assert (Hby : b == y).
    { rewrite H3, Hp, Hk, inject_Z_plus. change (inject_Z 1) with 1. ring. }
    split.
    + intros z Hz. apply In_nth_error in Hz as [j Hj].
      rewrite Hby. apply (sorted_nth_le s Hs j (S k) z y); auto.
      assert (j < length s)%nat by (apply nth_error_Some; congruence). lia.
    + exists y. split; [eapply nth_error_In; eauto|exact Hby].
Qed.

(** On a sample that is not empty the six breaks are the percentiles 0,
    20, 40, 60, 80 and 100 of the sample. *)
Lemma solar_breaks_ok (nodata_value : Q) (solar : raster) :
  solar_sample nodata_value solar <> [] ->
  exists b0 b1 b2 b3 b4 b5,
    solar_breaks nodata_value solar = Ok [b0; b1; b2; b3; b4; b5] /\
    between_order_statistics (sort (solar_sample nodata_value solar)) 0 b0 /\
    between_order_statistics (sort (solar_sample nodata_value solar)) 20 b1 /\
    between_order_statistics (sort (solar_sample nodata_value solar)) 40 b2 /\
    between_order_statistics (sort (solar_sample nodata_value solar)) 60 b3 /\
    between_order_statistics (sort (solar_sample nodata_value solar)) 80 b4 /\
    between_order_statistics (sort (solar_sample nodata_value solar)) 100 b5.
Proof.
  intros Hne. unfold solar_breaks, quantiles.
  set (a := solar_sample nodata_value solar) in *.
  destruct (percentile_between a (0 * 100) Hne) as [b0 [E0 B0]]; try lra.
  destruct (percentile_between a (0.2 * 100) Hne) as [b1 [E1 B1]]; try lra.
  destruct (percentile_between a (0.4 * 100) Hne) as [b2 [E2 B2]]; try lra.
  destruct (percentile_between a (0.6 * 100) Hne) as [b3 [E3 B3]]; try lra.
  destruct (percentile_between a (0.8 * 100) Hne) as [b4 [E4 B4]]; try lra.
  destruct (percentile_between a (1.0 * 100) Hne) as [b5 [E5 B5]]; try lra.
  exists b0, b1, b2, b3, b4, b5.
  cbn [traverse]. rewrite E0, E1, E2, E3, E4, E5. cbn [bind].
  split; [reflexivity|].
  repeat split;
    match goal with
    | H : between_order_statistics _ ?q ?b |- between_order_statistics _ _ ?b =>
        apply (between_order_statistics_morphism _ q _ _); [reflexivity|exact H]
    end.
Qed.

Lemma In_sort (l : list Q) (x : Q) : In x (sort l) <-> In x l.
Proof.
  split; apply Permutation_in; [apply sort_perm|apply Permutation_sym, sort_perm].
Qed.


(** The table of six breaks leaves no gap between the first and the last
    break. *)
Lemma quantile_table_covers (b0 b1 b2 b3 b4 b5 v : Q) :
  b0 <= v -> v <= b5 ->
  remap_lookup (quantile_table b0 b1 b2 b3 b4 b5) v <> None.
Proof.
  intros Hlo Hhi. unfold quantile_table.
  rewrite !remap_lookup_cons. cbn [remap_lookup lo hi new_value].
  destruct (Qltb v b1) eqn:E1.
  { apply Qleb_le in Hlo as ->. discriminate. }
  apply Qltb_ge in E1. rewrite andb_false_r.
  destruct (Qltb v b2) eqn:E2.
  { apply Qleb_le in E1 as ->. discriminate. }
  apply Qltb_ge in E2. rewrite andb_false_r.
  destruct (Qltb v b3) eqn:E3.
  { apply Qleb_le in E2 as ->. discriminate. }
  apply Qltb_ge in E3. rewrite andb_false_r.
  destruct (Qltb v b4) eqn:E4.
  { apply Qleb_le in E3 as ->. discriminate. }
  apply Qltb_ge in E4. rewrite andb_false_r.
  apply Qleb_le in E4 as ->. apply Qleb_le in Hhi as ->. discriminate.
Qed.


Lemma positive_values_not_nil (solar : raster) :
  (exists row col v, cell_at solar row col = Some (Some v) /\ 0 < v) ->
  positive_values solar <> [].
Proof.
  intros [row [col [v H]]] E.
  assert (Hin : In v (positive_values solar)) by (apply In_positive_values; eauto).
  rewrite E in Hin. destruct Hin.
Qed.

(** ** Solar radiation *)









(** ** Cells and their coordinates *)

Lemma index_from_In {A : Type} (l : list A) :
  forall s k x,
    In (k, x) (index_from s l) <-> (s <= k)%nat /\ nth_error l (k - s) = Some x.
Proof.
  induction l as [|y l IH]; intros s k x; simpl.
  - split; [tauto|]. intros [_ H]. destruct (k - s)%nat; discriminate.
  - rewrite IH. split.
    + intros [H|[Hle Hn]].
      * inversion H; subst. rewrite Nat.sub_diag. auto.
      * split; [lia|]. replace (k - s)%nat with (S (k - S s)) by lia. exact Hn.
    + intros [Hle Hn]. destruct (Nat.eq_dec s k) as [->|Hne].
      * rewrite Nat.sub_diag in Hn. simpl in Hn. left. congruence.
      * right. split; [lia|].
        replace (k - s)%nat with (S (k - S s)) in Hn by lia. exact Hn.
Qed.

Lemma index_from_fst {A : Type} (l : list A) :
  forall s, map fst (index_from s l) = seq s (length l).
Proof.
  induction l as [|y l IH]; intros s; simpl; [reflexivity|].
  rewrite IH. reflexivity.
Qed.

Lemma row_cells_In {A : Type} (row : nat) (line : list A) (r c : nat) (x : A) :
  In (r, c, x) (row_cells row line) <-> r = row /\ nth_error line c = Some x.
Proof.
  unfold row_cells. rewrite in_map_iff. split.
  - intros [[c' x'] [E Hin]]. simpl in E. inversion E; subst.
    apply index_from_In in Hin as [_ Hn]. rewrite Nat.sub_0_r in Hn. auto.
  - intros [-> Hn]. exists (c, x). split; [reflexivity|].
    apply index_from_In. rewrite Nat.sub_0_r. split; [lia|exact Hn].
Qed.

Lemma grid_cells_In {A : Type} (g : list (list A)) (r c : nat) (x : A) :
  In (r, c, x) (grid_cells g) <-> cell_at g r c = Some x.
Proof.
  unfold grid_cells. rewrite in_flat_map, cell_at_row. split.
  - intros [[row line] [Hin Hc]]. simpl in Hc.
    apply row_cells_In in Hc as [-> Hc].
    apply index_from_In in Hin as [_ Hn]. rewrite Nat.sub_0_r in Hn. eauto.
  - intros [line [Hr Hc]]. exists (r, line). split.
    + apply index_from_In. rewrite Nat.sub_0_r. split; [lia|exact Hr].
    + simpl. apply row_cells_In. auto.
Qed.

Lemma data_cells_filter (g : raster) :
  data_cells g = map coord_of (filter has_data (grid_cells g)).
Proof.
  unfold data_cells. induction (grid_cells g) as [|[[r c] [v|]] l IH]; simpl.
  - reflexivity.
  - rewrite IH. reflexivity.
  - exact IH.
Qed.

Lemma data_cells_In (g : raster) (r c : nat) :
  In (r, c) (data_cells g) <-> exists v, cell_at g r c = Some (Some v).
Proof.
  rewrite data_cells_filter, in_map_iff. split.
  - intros [[[r' c'] x] [E Hin]]. unfold coord_of in E. simpl in E.
    inversion E; subst. apply filter_In in Hin as [Hin Hd].
    destruct x as [v|]; [|discriminate]. exists v. apply grid_cells_In. exact Hin.
  - intros [v H]. exists (r, c, Some v). split; [reflexivity|].
    apply filter_In. split; [apply grid_cells_In; exact H|reflexivity].
Qed.

Lemma row_cells_coords {A : Type} (row : nat) (line : list A) :
  map (fun rcv => (fst (fst rcv), snd (fst rcv))) (row_cells row line)
  = map (fun c => (row, c)) (seq 0 (length line)).
Proof.
  unfold row_cells. rewrite map_map. simpl.
  rewrite <- (index_from_fst line 0), map_map. reflexivity.
Qed.

Lemma rows_coords_NoDup {A : Type} (g : list (list A)) :
  forall s,
    NoDup (map (fun rcv : nat * nat * A => (fst (fst rcv), snd (fst rcv)))
             (flat_map (fun rl => row_cells (fst rl) (snd rl)) (index_from s g))).
Proof.
  induction g as [|line g IH]; intros s; simpl; [constructor|].
  rewrite map_app. apply NoDup_app.
  - rewrite row_cells_coords. apply Injective_map_NoDup; [|apply seq_NoDup].
    intros c c' E. congruence.
  - apply IH.
  - intros [r c] H1 H2.
    apply in_map_iff in H1 as [[[r1 c1] x1] [E1 H1]]. simpl in E1.
    apply row_cells_In in H1 as [-> _].
    apply in_map_iff in H2 as [[[r2 c2] x2] [E2 H2]]. simpl in E2.
    apply in_flat_map in H2 as [[row l] [Hin Hc]]. simpl in Hc.
    apply row_cells_In in Hc as [-> _].
    apply index_from_In in Hin as [Hle _].
    inversion E1; inversion E2; subst. lia.
Qed.

(** Keeping some elements of a list with distinct keys leaves the keys
    distinct. *)
Lemma distinct_keys_filter {A K : Type} (keep : A -> bool) (key : A -> K) :
  forall xs : list A, NoDup (map key xs) -> NoDup (map key (filter keep xs)).
Proof.
  intros xs. induction xs as [|x xs IH]; simpl; intros Hnd; [constructor|].
  apply NoDup_cons_iff in Hnd as [Hfresh Hnd].
  destruct (keep x); simpl; [|exact (IH Hnd)].
  apply NoDup_cons; [|exact (IH Hnd)].
  intros Hin. apply Hfresh.
  apply in_map_iff in Hin as [z [Ez Hz]]. apply filter_In in Hz as [Hz _].
  rewrite <- Ez. apply in_map. exact Hz.
Qed.

Lemma data_cells_NoDup (g : raster) : NoDup (data_cells g).
Proof.
  rewrite data_cells_filter. apply distinct_keys_filter.
  unfold grid_cells, coord_of. apply rows_coords_NoDup.
Qed.

(** ** Regions *)

Lemma adjacent4_sym (a b : coord) : adjacent4 a b = adjacent4 b a.
Proof.
  unfold adjacent4.
  rewrite (Nat.eqb_sym (fst a) (fst b)), (Nat.eqb_sym (snd a) (snd b)).
  rewrite (orb_comm (S (snd a) =? snd b)%nat), (orb_comm (S (fst a) =? fst b)%nat).
  reflexivity.
Qed.

Lemma partition_perm {A : Type} (p : A -> bool) (l : list A) :
  forall near far, partition p l = (near, far) -> Permutation (near ++ far) l.
Proof.
  induction l as [|x l IH]; intros near far H; simpl in H.
  - inversion H; subst. constructor.
  - destruct (partition p l) as [n f] eqn:E. specialize (IH n f eq_refl).
    destruct (p x); inversion H; subst; simpl.
    + constructor. exact IH.
    + apply Permutation_sym, Permutation_cons_app, Permutation_sym. exact IH.
Qed.

(** [grow] keeps the cells it was given, keeps the region it started
    from, and with enough fuel stops only when no remaining cell touches
    the region. *)
Lemma grow_spec (fuel : nat) :
  forall region rest grown others,
    (length rest <= fuel)%nat ->
    grow fuel region rest = (grown, others) ->
    Permutation (grown ++ others) (region ++ rest) /\
    (forall c, In c region -> In c grown) /\
    (forall c, In c others -> existsb (adjacent4 c) grown = false).
Proof.
  induction fuel as [|fuel IH]; intros region rest grown others Hlen H.
  - simpl in H. inversion H; subst. destruct others; [|simpl in Hlen; lia].
    repeat split; auto. intros c [].
  - simpl in H.
    destruct (partition (fun c => existsb (adjacent4 c) region) rest)
      as [near far] eqn:Ep.
    pose proof (partition_perm _ _ _ _ Ep) as Hperm.
    pose proof (partition_length _ _ Ep) as Hpl.
    destruct near as [|n near].
    + inversion H; subst. repeat split; auto.
      intros c Hc. rewrite partition_as_filter in Ep. inversion Ep as [[Hnear Hfar]].
      destruct (existsb (adjacent4 c) grown) eqn:E; [|reflexivity].
      assert (Hin : In c (filter (fun c => existsb (adjacent4 c) grown) others)).
      { apply filter_In. auto. }
      rewrite Hnear in Hin. destruct Hin.
    + destruct (IH (region ++ n :: near) far grown others) as [Hp [Hsub Hfix]];
        [simpl in Hpl; lia|exact H|].
      repeat split; auto.
      * eapply perm_trans; [exact Hp|].
        rewrite <- app_assoc. apply Permutation_app_head. exact Hperm.
      * intros c Hc. apply Hsub. apply in_or_app. left. exact Hc.
Qed.

(** From a seed of a connected set without repetition, [grow] takes the
    whole set. *)
Lemma grow_connected (seed : coord) (rest grown others : list coord) :
  NoDup (seed :: rest) -> connected4 (seed :: rest) ->
  grow (length rest) [seed] rest = (grown, others) ->
  others = [] /\ Permutation grown (seed :: rest).
Proof.
  intros Hnd Hconn Hg.
  destruct (grow_spec (length rest) [seed] rest grown others (le_n _) Hg)
    as [Hperm [Hsub Hfix]].
  simpl in Hperm.
  assert (Hall : forall a b, linked (seed :: rest) a b -> In a grown -> In b grown).
  { intros a b Hl Hstart. induction Hl as [a Ha|a b c Hab IH Hc Hadj].
    - exact Hstart.
    - specialize (IH Hstart).
      assert (Hc' : In c (grown ++ others)).
      { eapply Permutation_in; [apply Permutation_sym; exact Hperm|exact Hc]. }
      apply in_app_or in Hc' as [Hc'|Hc']; [exact Hc'|].
      exfalso. specialize (Hfix c Hc').
      assert (Hex : existsb (adjacent4 c) grown = true).
      { apply existsb_exists. exists b. split; [exact IH|].
        rewrite adjacent4_sym. exact Hadj. }
      congruence. }
  assert (Ho : others = []).
  { destruct others as [|x others]; [reflexivity|]. exfalso.
    assert (Hx : In x (seed :: rest)).
    { eapply Permutation_in; [exact Hperm|]. apply in_or_app. right. left. reflexivity. }
    assert (Hxg : In x grown).
    { apply (Hall seed x); [|apply Hsub; left; reflexivity].
      apply Hconn; [left; reflexivity|exact Hx]. }
    assert (Hnd' : NoDup (grown ++ x :: others)).
    { eapply Permutation_NoDup; [apply Permutation_sym; exact Hperm|exact Hnd]. }
    apply NoDup_remove_2 in Hnd'. apply Hnd'. apply in_or_app. left. exact Hxg. }
  split; [exact Ho|]. subst others. rewrite app_nil_r in Hperm. exact Hperm.
Qed.

(** A connected set of cells that is not empty is one region. *)
Lemma components_connected (cells : list coord) :
  cells <> [] -> NoDup cells -> connected4 cells ->
  exists region,
    components (length cells) cells = [region] /\ Permutation region cells.
Proof.
  intros Hne Hnd Hconn. destruct cells as [|seed rest]; [congruence|].
  simpl. destruct (grow (length rest) [seed] rest) as [grown others] eqn:Hg.
  destruct (grow_connected seed rest grown others Hnd Hconn Hg) as [-> Hperm].
  exists grown. split; [|exact Hperm].
  destruct (length rest); reflexivity.
Qed.

(** The cells of the thresholded raster: those of the surface that hold
    a value at or above the threshold. *)
Lemma best_zones_cell (threshold : Q) (suitability : raster) (row col : nat) :
  cell_at (Con (raster_ge suitability threshold) 1) row col =
  option_map (fun c : cell => match c with
                              | Some v => if Qleb threshold v then Some 1 else None
                              | None => None
                              end) (cell_at suitability row col).
Proof.
  unfold Con, raster_ge. rewrite !cell_at_grid_map.
  destruct (cell_at suitability row col) as [[v|]|]; simpl; try reflexivity.
  destruct (Qleb threshold v); reflexivity.
Qed.

Lemma best_zones_In (threshold : Q) (suitability : raster) (row col : nat) :
  In (row, col) (data_cells (Con (raster_ge suitability threshold) 1)) <->
  exists v, cell_at suitability row col = Some (Some v) /\ threshold <= v.
Proof.
  rewrite data_cells_In. split.
  - intros [one H]. rewrite best_zones_cell in H.
    destruct (cell_at suitability row col) as [[v|]|]; simpl in H; try discriminate.
    destruct (Qleb threshold v) eqn:E; [|discriminate].
    exists v. split; [reflexivity|apply Qleb_le; exact E].
  - intros [v [H Hv]]. exists 1. rewrite best_zones_cell, H. simpl.
    apply Qleb_le in Hv as ->. reflexivity.
Qed.

Lemma grid_cells_map {A B : Type} (f : A -> B) (g : list (list A)) :
  grid_cells (grid_map f g) =
  map (fun rcv => (fst (fst rcv), snd (fst rcv), f (snd rcv))) (grid_cells g).
Proof.
  unfold grid_cells, grid_map. generalize 0%nat.
  induction g as [|line g IH]; intros s; simpl; [reflexivity|].
  rewrite map_app, IH. f_equal.
  unfold row_cells. generalize 0%nat. clear.
  induction line as [|x line IH]; intros k; simpl; [reflexivity|].
  rewrite IH. reflexivity.
Qed.

Lemma flat_map_map_in {A B C : Type} (f : A -> B) (F : B -> list C) (G : A -> list C)
  (l : list A) :
  (forall x, In x l -> F (f x) = G x) -> flat_map F (map f l) = flat_map G l.
Proof.
  induction l as [|x l IH]; intros H; simpl; [reflexivity|].
  rewrite (H x (or_introl eq_refl)), IH; [reflexivity|].
  intros y Hy. apply H. right. exact Hy.
Qed.

(** When every value reaches the threshold, the thresholded raster has
    data exactly where the surface has. *)
Lemma best_zones_all (threshold : Q) (suitability : raster) :
  (forall row col v, cell_at suitability row col = Some (Some v) -> threshold <= v) ->
  data_cells (Con (raster_ge suitability threshold) 1) = data_cells suitability.
Proof.
  intros Hall. unfold Con, raster_ge, data_cells.
  rewrite !grid_cells_map, map_map.
  apply flat_map_map_in.
  intros [[r c] x] Hin. simpl. destruct x as [v|]; [|reflexivity].
  apply grid_cells_In in Hin. specialize (Hall r c v Hin).
  apply Qleb_le in Hall as ->. reflexivity.
Qed.

Lemma best_zones_none (threshold : Q) (suitability : raster) :
  (forall row col v, cell_at suitability row col = Some (Some v) -> v < threshold) ->
  data_cells (Con (raster_ge suitability threshold) 1) = [].
Proof.
  intros Hall.
  destruct (data_cells (Con (raster_ge suitability threshold) 1)) as [|[r c] l] eqn:E;
    [reflexivity|].
  assert (Hin : In (r, c) (data_cells (Con (raster_ge suitability threshold) 1))).
  { rewrite E. left. reflexivity. }
  apply best_zones_In in Hin as [v [Hc Hv]].
  specialize (Hall r c v Hc). lra.
Qed.

(** ** Zones *)

(** C5, as the claim states it, fails: the single cell of this surface
    reaches the threshold 4.5 and is a connected set, its region covers
    1 hectare, and with the default minimum of 2 hectares no region is
    returned. *)
Lemma small_region_counterexample :
  (forall row col v, cell_at [[Some 5]] row col = Some (Some v) -> 4.5 <= v) /\
  connected4 (data_cells [[Some 5]]) /\
  Area_Ha 100 (data_cells [[Some 5]]) == 1 /\
  extract_best_zones [[Some 5]] 100 default_min_area_ha = [].
Proof.
  split; [|split; [|split; reflexivity]].
  - intros row col v H. unfold cell_at in H.
    destruct row as [|row]; [|destruct row; discriminate].
    destruct col as [|col]; [|destruct col; discriminate].
    simpl in H. inversion H; subst. lra.
  - intros a b Ha Hb. simpl in Ha, Hb.
    destruct Ha as [<-|[]], Hb as [<-|[]]. apply linked_here. left. reflexivity.
Qed.

(** C5, amended.  When every value of the surface lies below the
    threshold, [extract_zones] returns no region, without failing.  When
    every value reaches the threshold and the cells that hold data are
    a 4-connected set that is not empty, these cells form one region:
    it is the one region returned when its area, cell count times cell
    size squared over 10000, reaches [min_area_ha], and no region is
    returned when it does not.  [extract_best_zones] is the case of the
    threshold 4.5. *)
Theorem extract_zones_extremes
  (threshold : Q) (suitability : raster) (cell_size min_area_ha : Q) :
  ((forall row col v, cell_at suitability row col = Some (Some v) -> v < threshold) ->
   extract_zones threshold suitability cell_size min_area_ha = []) /\
  ((forall row col v, cell_at suitability row col = Some (Some v) -> threshold <= v) ->
   data_cells suitability <> [] ->
   connected4 (data_cells suitability) ->
   (min_area_ha <= Area_Ha cell_size (data_cells suitability) ->
    exists region,
      extract_zones threshold suitability cell_size min_area_ha = [region] /\
      Permutation region (data_cells suitability) /\
      (forall row col,
          In (row, col) region <->
          exists v, cell_at suitability row col = Some (Some v))) /\
   (Area_Ha cell_size (data_cells suitability) < min_area_ha ->
    extract_zones threshold suitability cell_size min_area_ha = [])) /\
  extract_best_zones suitability cell_size min_area_ha
  = extract_zones 4.5 suitability cell_size min_area_ha.
Proof.
  split; [|split; [|reflexivity]].
  - intros Hbelow. unfold extract_zones, RasterToPolygon.
    rewrite (best_zones_none threshold suitability Hbelow). reflexivity.
  - intros Habove Hne Hconn.
    destruct (components_connected (data_cells suitability) Hne
                (data_cells_NoDup suitability) Hconn) as [region [Hcomp Hperm]].
    assert (Harea : Area_Ha cell_size region
                    = Area_Ha cell_size (data_cells suitability)).
    { unfold Area_Ha. rewrite (Permutation_length Hperm). reflexivity. }
    unfold extract_zones, RasterToPolygon.
    rewrite (best_zones_all threshold suitability Habove), Hcomp.
    cbn [filter]. rewrite Harea. split.
    + intros Hmin. apply Qleb_le in Hmin as ->. exists region.
      split; [reflexivity|]. split; [exact Hperm|].
      intros row col. rewrite <- data_cells_In. split.
      * apply Permutation_in. exact Hperm.
      * apply Permutation_in, Permutation_sym. exact Hperm.
    + intros Hmin. apply Qleb_gt in Hmin as ->. reflexivity.
Qed.

Lemma extract_zones_extremes_witness :
  extract_zones 6 [[Some 5; Some 5]] 100 0 = [] /\
  exists region,
    extract_best_zones [[Some 5; Some 5]] 100 0 = [region] /\
    Permutation region [(0%nat, 0%nat); (0%nat, 1%nat)].
Proof.
  destruct (extract_zones_extremes 6 [[Some 5; Some 5]] 100 0) as [Hnone _].
  destruct (extract_zones_extremes 4.5 [[Some 5; Some 5]] 100 0) as [_ [Hone _]].
  assert (Hcell : forall row col v,
            cell_at [[Some 5; Some 5]] row col = Some (Some v) -> v = 5).
  { intros row col v H. unfold cell_at in H.
    destruct row as [|row]; [|destruct row; discriminate].
    destruct col as [|[|col]]; simpl in H;
      try (inversion H; subst; reflexivity).
    destruct col; discriminate. }
  split.
  - apply Hnone. intros row col v H. rewrite (Hcell row col v H). lra.
  - destruct Hone as [Hsome _].
    + intros row col v H. rewrite (Hcell row col v H). lra.
    + discriminate.
    + intros a b Ha Hb. simpl in Ha, Hb.
      destruct Ha as [<-|[<-|[]]], Hb as [<-|[<-|[]]].
      * apply linked_here. left. reflexivity.
      * eapply linked_step;
          [apply linked_here; left; reflexivity|right; left; reflexivity|reflexivity].
      * eapply linked_step;
          [apply linked_here; right; left; reflexivity|left; reflexivity|reflexivity].
      * apply linked_here. right. left. reflexivity.
    + destruct Hsome as [region [Hz [Hp _]]].
      * vm_compute. discriminate.
      * exists region. split; [exact Hz|exact Hp].
Defined.

(** The scenario of section 8: a 3 by 3 surface of cell size 100 with
    suitability 5 everywhere gives one region of 9 cells and 9 hectares. *)
Example nine_cell_scenario :
  calculate_suitability
    [[Some 5; Some 5; Some 5]; [Some 5; Some 5; Some 5]; [Some 5; Some 5; Some 5]]
    [[Some 5; Some 5; Some 5]; [Some 5; Some 5; Some 5]; [Some 5; Some 5; Some 5]]
    [[Some 5; Some 5; Some 5]; [Some 5; Some 5; Some 5]; [Some 5; Some 5; Some 5]]
    [[Some 5; Some 5; Some 5]; [Some 5; Some 5; Some 5]; [Some 5; Some 5; Some 5]]
    None
  = Ok (grid_map (fun _ : cell => Some (0.3 * 5 + 0.2 * 5 + 0.4 * 5 + 0.1 * 5))
          [[None; None; None]; [None; None; None]; [None; None; None]]) /\
  exists region,
    extract_best_zones
      (grid_map (fun _ : cell => Some (0.3 * 5 + 0.2 * 5 + 0.4 * 5 + 0.1 * 5))
         [[None; None; None]; [None; None; None]; [None; None; None]]) 100 0
    = [region] /\
    length region = 9%nat /\ Area_Ha 100 region == 9.
Proof.
  split; [reflexivity|].
  eexists. split; [vm_compute; reflexivity|]. split; reflexivity.
Qed.

(** * Further properties *)

(** ** The overlay, cell by cell *)

(** A suitability cell that holds a value comes from four score cells
    that hold values, and lies inside the mask when there is one. *)
Lemma weighted_overlay_valid (w : weights) (s1 s2 s3 s4 : raster)
  (mask_path : option (list (list bool))) (out : raster) (row col : nat) (v : Q) :
  weighted_overlay w s1 s2 s3 s4 mask_path = Ok out ->
  cell_at out row col = Some (Some v) ->
  exists x y z u,
    cell_at s1 row col = Some (Some x) /\ cell_at s2 row col = Some (Some y) /\
    cell_at s3 row col = Some (Some z) /\ cell_at s4 row col = Some (Some u) /\
    v = w_slope w * x + w_aspect w * y + w_solar w * z + w_distance w * u /\
    match mask_path with
    | Some mask => cell_at mask row col = Some true
    | None => True
    end.
Proof.
  intros Hout Hv.
  destruct (weighted_overlay_cell w s1 s2 s3 s4 mask_path row col) as [out' [Hout' Hcell]].
  rewrite Hout in Hout'. inversion Hout'; subst out'. clear Hout'.
  rewrite Hv, weighted_sum_cell in Hcell.
  destruct (cell_at s1 row col) as [a|];
    [|destruct mask_path; discriminate].
  destruct (cell_at s2 row col) as [b|];
    [|destruct mask_path; discriminate].
  destruct (cell_at s3 row col) as [c|];
    [|destruct mask_path; discriminate].
  destruct (cell_at s4 row col) as [d|];
    [|destruct mask_path; discriminate].
  assert (Hw : weighted_cell w a b c d = Some v /\
               match mask_path with
               | Some mask => cell_at mask row col = Some true
               | None => True
               end).
  { destruct mask_path as [mask|].
    - destruct (cell_at mask row col) as [[|]|]; try discriminate.
      inversion Hcell. auto.
    - inversion Hcell. auto. }
  destruct Hw as [Hw Hm].
  destruct a as [x|], b as [y|], c as [z|], d as [u|]; try discriminate.
  simpl in Hw. inversion Hw. exists x, y, z, u. repeat split; auto.
Qed.

(** X1.  Every value of the suitability raster is the weighted sum of
    four score values of the same cell, none of them missing, and lies
    between the least and the greatest of the four: any bound that holds
    for the four scores holds for the suitability. *)
Theorem suitability_between_scores
  (s1 s2 s3 s4 : raster) (mask_path : option (list (list bool)))
  (out : raster) (row col : nat) (v : Q)
  (Hout : calculate_suitability s1 s2 s3 s4 mask_path = Ok out)
  (Hv : cell_at out row col = Some (Some v)) :
  exists x y z u,
    cell_at s1 row col = Some (Some x) /\ cell_at s2 row col = Some (Some y) /\
    cell_at s3 row col = Some (Some z) /\ cell_at s4 row col = Some (Some u) /\
    v = 0.3 * x + 0.2 * y + 0.4 * z + 0.1 * u /\
    (forall low, low <= x -> low <= y -> low <= z -> low <= u -> low <= v) /\
    (forall high, x <= high -> y <= high -> z <= high -> u <= high -> v <= high).
Proof.
  destruct (weighted_overlay_valid script_weights s1 s2 s3 s4 mask_path out row col v
              Hout Hv) as (x & y & z & u & H1 & H2 & H3 & H4 & Hsum & _).
  exists x, y, z, u. simpl in Hsum.
  repeat (split; [assumption|]). split.
  - intros low Lx Ly Lz Lu. rewrite Hsum. lra.
  - intros high Ux Uy Uz Uu. rewrite Hsum. lra.
Qed.

Lemma suitability_between_scores_witness :
  exists x y z u,
    cell_at [[Some 2; Some 5]] 0 1 = Some (Some x) /\
    cell_at [[Some 3; Some 4]] 0 1 = Some (Some y) /\
    cell_at [[Some 1; Some 3]] 0 1 = Some (Some z) /\
    cell_at [[Some 5; Some 2]] 0 1 = Some (Some u) /\
    2 <= 0.3 * x + 0.2 * y + 0.4 * z + 0.1 * u <= 5.
Proof.
  destruct (suitability_between_scores
              [[Some 2; Some 5]] [[Some 3; Some 4]] [[Some 1; Some 3]] [[Some 5; Some 2]]
              None
              [[Some (0.3 * 2 + 0.2 * 3 + 0.4 * 1 + 0.1 * 5);
                Some (0.3 * 5 + 0.2 * 4 + 0.4 * 3 + 0.1 * 2)]]
              0 1 (0.3 * 5 + 0.2 * 4 + 0.4 * 3 + 0.1 * 2) eq_refl eq_refl)
    as (x & y & z & u & H1 & H2 & H3 & H4 & Hsum & Hlow & Hhigh).
  exists x, y, z, u. repeat (split; [assumption|]).
  inversion H1; inversion H2; inversion H3; inversion H4; subst. split; lra.
Defined.

(** X2.  The overlay is monotone: when no score of a cell is lowered
    from one run to the other, the suitability of the cell is not
    lowered. *)
Theorem suitability_monotone
  (s1 s2 s3 s4 t1 t2 t3 t4 : raster) (mask_path : option (list (list bool)))
  (out out' : raster) (row col : nat) (v v' : Q)
  (Hout : calculate_suitability s1 s2 s3 s4 mask_path = Ok out)
  (Hout' : calculate_suitability t1 t2 t3 t4 mask_path = Ok out')
  (Hv : cell_at out row col = Some (Some v))
  (Hv' : cell_at out' row col = Some (Some v'))
  (L1 : forall x x', cell_at s1 row col = Some (Some x) ->
                     cell_at t1 row col = Some (Some x') -> x <= x')
  (L2 : forall x x', cell_at s2 row col = Some (Some x) ->
                     cell_at t2 row col = Some (Some x') -> x <= x')
  (L3 : forall x x', cell_at s3 row col = Some (Some x) ->
                     cell_at t3 row col = Some (Some x') -> x <= x')
  (L4 : forall x x', cell_at s4 row col = Some (Some x) ->
                     cell_at t4 row col = Some (Some x') -> x <= x') :
  v <= v'.
Proof.
  destruct (weighted_overlay_valid script_weights s1 s2 s3 s4 mask_path out row col v
              Hout Hv) as (x & y & z & u & H1 & H2 & H3 & H4 & Hsum & _).
  destruct (weighted_overlay_valid script_weights t1 t2 t3 t4 mask_path out' row col v'
              Hout' Hv') as (x' & y' & z' & u' & H1' & H2' & H3' & H4' & Hsum' & _).
  specialize (L1 x x' H1 H1'). specialize (L2 y y' H2 H2').
  specialize (L3 z z' H3 H3'). specialize (L4 u u' H4 H4').
  simpl in Hsum, Hsum'. rewrite Hsum, Hsum'. lra.
Qed.

Lemma suitability_monotone_witness :
  0.3 * 2 + 0.2 * 3 + 0.4 * 1 + 0.1 * 5 <= 0.3 * 4 + 0.2 * 3 + 0.4 * 1 + 0.1 * 5.
Proof.
  assert (Hle : forall a b : Q, a <= b ->
            forall x x', cell_at [[Some a]] 0 0 = Some (Some x) ->
                         cell_at [[Some b]] 0 0 = Some (Some x') -> x <= x').
  { intros a b Hab x x' Hx Hx'. inversion Hx; inversion Hx'; subst. exact Hab. }
  apply (suitability_monotone
           [[Some 2]] [[Some 3]] [[Some 1]] [[Some 5]]
           [[Some 4]] [[Some 3]] [[Some 1]] [[Some 5]] None
           [[Some (0.3 * 2 + 0.2 * 3 + 0.4 * 1 + 0.1 * 5)]]
           [[Some (0.3 * 4 + 0.2 * 3 + 0.4 * 1 + 0.1 * 5)]] 0 0
           _ _ eq_refl eq_refl eq_refl eq_refl);
    apply Hle; lra.
Defined.

(** ** Regions of a raster *)

Lemma linked_incl (cells cells' : list coord) (a b : coord) :
  (forall c, In c cells -> In c cells') -> linked cells a b -> linked cells' a b.
Proof.
  intros Hsub Hl. induction Hl as [a Ha|a b c Hab IH Hc Hadj].
  - apply linked_here. auto.
  - eapply linked_step; eauto.
Qed.

Lemma linked_start (cells : list coord) (a b : coord) :
  linked cells a b -> In a cells.
Proof. induction 1; auto. Qed.

Lemma linked_trans (cells : list coord) (a b c : coord) :
  linked cells a b -> linked cells b c -> linked cells a c.
Proof.
  intros Hab Hbc. revert Hab.
  induction Hbc as [b Hb|b c d Hbc IH Hd Hadj]; intros Hab; [exact Hab|].
  eapply linked_step; [apply IH; exact Hab|exact Hd|exact Hadj].
Qed.

Lemma linked_sym (cells : list coord) (a b : coord) :
  linked cells a b -> linked cells b a.
Proof.
  induction 1 as [a Ha|a b c Hab IH Hc Hadj].
  - apply linked_here. exact Ha.
  - apply (linked_trans cells c b a); [|exact IH].
    eapply linked_step; [apply linked_here; exact Hc|exact (linked_start _ _ _ IH)|].
    rewrite adjacent4_sym. exact Hadj.
Qed.

(** [grow] only adds cells that a chain inside the region links to the
    seed. *)
Lemma grow_linked (seed : coord) (fuel : nat) :
  forall region rest grown others,
    (forall c, In c region -> linked region seed c) ->
    grow fuel region rest = (grown, others) ->
    forall c, In c grown -> linked grown seed c.
Proof.
  induction fuel as [|fuel IH]; intros region rest grown others Hinv H.
  - simpl in H. inversion H; subst. exact Hinv.
  - simpl in H.
    destruct (partition (fun c => existsb (adjacent4 c) region) rest)
      as [near far] eqn:Ep.
    destruct near as [|n near].
    + inversion H; subst. exact Hinv.
    + apply (IH (region ++ n :: near) far grown others); [|exact H].
      intros c Hc.
      assert (Hsub : forall d, In d region -> In d (region ++ n :: near)).
      { intros d Hd. apply in_or_app. left. exact Hd. }
      apply in_app_or in Hc as [Hc|Hc].
      * apply (linked_incl region); auto.
      * rewrite partition_as_filter in Ep. injection Ep as Hnear Hfar.
        assert (Hf : In c (filter (fun c => existsb (adjacent4 c) region) rest)).
        { rewrite Hnear. exact Hc. }
        apply filter_In in Hf as [_ Hex].
        apply existsb_exists in Hex as [b [Hb Hadj]].
        eapply linked_step.
        -- apply (linked_incl region); [exact Hsub|]. apply Hinv. exact Hb.
        -- apply in_or_app. right. exact Hc.
        -- rewrite adjacent4_sym. exact Hadj.
Qed.

(** The regions of a list of cells, whatever its shape: together they
    hold the cells of the list, each once. *)
Lemma components_partition (fuel : nat) :
  forall cells,
    (length cells <= fuel)%nat ->
    Permutation (concat (components fuel cells)) cells.
Proof.
  induction fuel as [|fuel IH]; intros cells Hlen.
  - destruct cells; [constructor|simpl in Hlen; lia].
  - destruct cells as [|seed rest]; [constructor|].
    simpl. destruct (grow (length rest) [seed] rest) as [grown others] eqn:Hg.
    destruct (grow_spec (length rest) [seed] rest grown others (le_n _) Hg)
      as [Hperm [Hsub _]].
    simpl. simpl in Hperm.
    assert (Hgrown : (1 <= length grown)%nat).
    { destruct grown; [|simpl; lia]. destruct (Hsub seed (or_introl eq_refl)). }
    pose proof (Permutation_length Hperm) as Hl.
    rewrite length_app in Hl. simpl in Hl, Hlen.
    eapply perm_trans; [|exact Hperm].
    apply Permutation_app_head. apply IH. lia.
Qed.

(** Every region is a 4-connected set that holds its seed; the regions
    after it hold no cell that touches it. *)
Lemma components_regions (fuel : nat) :
  forall cells,
    Forall (fun region => region <> [] /\ connected4 region) (components fuel cells) /\
    ForallOrdPairs (fun first later =>
                      forall a b, In a first -> In b later -> adjacent4 a b = false)
                   (components fuel cells) /\
    (forall c, In c (concat (components fuel cells)) -> In c cells).
Proof.
  induction fuel as [|fuel IH]; intros cells.
  - simpl. repeat split; [constructor|constructor|intros c []].
  - destruct cells as [|seed rest];
      [simpl; repeat split; [constructor|constructor|intros c []]|].
    simpl. destruct (grow (length rest) [seed] rest) as [grown others] eqn:Hg.
    destruct (grow_spec (length rest) [seed] rest grown others (le_n _) Hg)
      as [Hperm [Hsub Hfix]].
    destruct (IH others) as [Hconn [Hsep Hin]].
    assert (Hlinked : forall c, In c grown -> linked grown seed c).
    { apply (grow_linked seed (length rest) [seed] rest grown others); [|exact Hg].
      intros c [<-|[]]. apply linked_here. left. reflexivity. }
    split; [|split].
    + constructor; [|exact Hconn]. split.
      * intros E. rewrite E in Hsub. destruct (Hsub seed (or_introl eq_refl)).
      * intros a b Ha Hb.
        apply (linked_trans grown a seed b); [|apply Hlinked; exact Hb].
        apply linked_sym, Hlinked. exact Ha.
    + constructor; [|exact Hsep].
      apply Forall_forall. intros later Hlater a b Ha Hb.
      assert (Hb' : In b others).
      { apply Hin. apply in_concat. exists later. auto. }
      specialize (Hfix b Hb').
      destruct (adjacent4 a b) eqn:E; [|reflexivity].
      assert (Hex : existsb (adjacent4 b) grown = true).
      { apply existsb_exists. exists a. split; [exact Ha|].
        rewrite adjacent4_sym. exact E. }
      congruence.
    + intros c Hc. simpl in Hc. apply in_app_or in Hc as [Hc|Hc].
      * apply (Permutation_in c Hperm). apply in_or_app. left. exact Hc.
      * apply (Permutation_in c Hperm). apply in_or_app. right.
        apply Hin. exact Hc.
Qed.

Lemma NoDup_concat_member {A : Type} (ls : list (list A)) (l : list A) :
  NoDup (concat ls) -> In l ls -> NoDup l.
Proof.
  induction ls as [|l0 ls IH]; intros Hnd Hin; [destruct Hin|].
  simpl in Hnd. destruct Hin as [->|Hin].
  - eapply NoDup_app_remove_r. exact Hnd.
  - apply IH; [|exact Hin]. eapply NoDup_app_remove_l. exact Hnd.
Qed.

Lemma NoDup_concat_disjoint {A : Type} (ls : list (list A)) :
  NoDup (concat ls) ->
  ForallOrdPairs (fun first later => forall a, In a first -> ~ In a later) ls.
Proof.
  induction ls as [|l0 ls IH]; intros Hnd; [constructor|].
  simpl in Hnd. constructor.
  - apply Forall_forall. intros later Hlater a Ha Hb.
    assert (Hc : In a (concat ls)) by (apply in_concat; eauto).
    clear - Hnd Ha Hc. induction l0 as [|x l0 IHl]; [destruct Ha|].
    simpl in Hnd. apply NoDup_cons_iff in Hnd as [Hx Hnd].
    destruct Ha as [->|Ha].
    + apply Hx. apply in_or_app. right. exact Hc.
    + apply IHl; assumption.
  - apply IH. eapply NoDup_app_remove_l. exact Hnd.
Qed.

Lemma ForallOrdPairs_filter {A : Type} (R : A -> A -> Prop) (p : A -> bool) (l : list A) :
  ForallOrdPairs R l -> ForallOrdPairs R (filter p l).
Proof.
  induction 1 as [|x l Hx Hl IH]; simpl; [constructor|].
  destruct (p x); [|exact IH].
  constructor; [|exact IH].
  apply Forall_forall. intros y Hy. apply filter_In in Hy as [Hy _].
  rewrite Forall_forall in Hx. apply Hx. exact Hy.
Qed.

Lemma ForallOrdPairs_and {A : Type} (R S : A -> A -> Prop) (l : list A) :
  ForallOrdPairs R l -> ForallOrdPairs S l ->
  ForallOrdPairs (fun x y => R x y /\ S x y) l.
Proof.
  induction 1 as [|x l Hx Hl IH]; intros HS; [constructor|].
  inversion HS as [|x' l' Sx Sl]; subst. constructor; [|apply IH; exact Sl].
  rewrite Forall_forall in *. intros y Hy. split; auto.
Qed.

(** The regions of a raster hold the cells with data, each once. *)
Lemma RasterToPolygon_partition (g : raster) :
  Permutation (concat (RasterToPolygon g)) (data_cells g).
Proof. unfold RasterToPolygon. apply components_partition. apply le_n. Qed.

(** ** The selected zones *)

(** X3.  Every zone that [extract_best_zones] returns is a 4-connected
    set of cells, not empty and without repetition, each of its cells
    holds a suitability of at least 4.5, and its area is at least
    [min_area_ha]. *)
Theorem best_zones_sound
  (suitability : raster) (cell_size min_area_ha : Q) (region : list coord)
  (Hzone : In region (extract_best_zones suitability cell_size min_area_ha)) :
  region <> [] /\ NoDup region /\ connected4 region /\
  min_area_ha <= Area_Ha cell_size region /\
  forall row col, In (row, col) region ->
                  exists v, cell_at suitability row col = Some (Some v) /\ 4.5 <= v.
Proof.
  unfold extract_best_zones, extract_zones in Hzone.
  apply filter_In in Hzone as [Hin Harea]. apply Qleb_le in Harea.
  set (best := Con (raster_ge suitability 4.5) 1) in *.
  pose proof (RasterToPolygon_partition best) as Hperm.
  unfold RasterToPolygon in Hin, Hperm.
  destruct (components_regions (length (data_cells best)) (data_cells best))
    as [Hconn [_ Hsub]].
  rewrite Forall_forall in Hconn. destruct (Hconn region Hin) as [Hne Hc].
  split; [exact Hne|]. split; [|split; [exact Hc|split; [exact Harea|]]].
  - apply (NoDup_concat_member
             (components (length (data_cells best)) (data_cells best)) region);
      [|exact Hin].
    eapply Permutation_NoDup; [apply Permutation_sym; exact Hperm|].
    apply data_cells_NoDup.
  - intros row col Hcell. apply best_zones_In. apply Hsub.
    apply in_concat. exists region. auto.
Qed.

Lemma best_zones_sound_witness :
  2 <= Area_Ha 100 [(0%nat, 0%nat); (0%nat, 1%nat)] /\
  exists v, cell_at [[Some 5; Some (19 # 4); Some 1]] 0 1 = Some (Some v) /\ 4.5 <= v.
Proof.
  destruct (best_zones_sound [[Some 5; Some (19 # 4); Some 1]] 100 default_min_area_ha
              [(0%nat, 0%nat); (0%nat, 1%nat)]) as (_ & _ & _ & Harea & Hcells).
  - vm_compute. left. reflexivity.
  - split; [exact Harea|]. apply (Hcells 0%nat 1%nat). right. left. reflexivity.
Defined.

(** X4.  Two different zones that [extract_best_zones] returns share no
    cell and have no edge-adjacent cells. *)
Theorem best_zones_separate (suitability : raster) (cell_size min_area_ha : Q) :
  ForallOrdPairs
    (fun first later =>
       (forall a, In a first -> ~ In a later) /\
       (forall a b, In a first -> In b later -> adjacent4 a b = false))
    (extract_best_zones suitability cell_size min_area_ha).
Proof.
  unfold extract_best_zones, extract_zones.
  set (best := Con (raster_ge suitability 4.5) 1).
  apply ForallOrdPairs_filter. apply ForallOrdPairs_and.
  - apply NoDup_concat_disjoint.
    eapply Permutation_NoDup;
      [apply Permutation_sym; apply RasterToPolygon_partition|].
    apply data_cells_NoDup.
  - unfold RasterToPolygon.
    destruct (components_regions (length (data_cells best)) (data_cells best))
      as [_ [Hsep _]].
    exact Hsep.
Qed.

(** X5.  No qualifying cell is lost before the area filter: a cell that
    holds a suitability of at least 4.5 lies in one region of the
    thresholded raster, and that region is among the zones returned as
    soon as its area reaches [min_area_ha]. *)
Theorem best_zones_complete
  (suitability : raster) (cell_size min_area_ha : Q) (row col : nat) (v : Q)
  (Hcell : cell_at suitability row col = Some (Some v))
  (Hv : 4.5 <= v) :
  exists region,
    In region (RasterToPolygon (Con (raster_ge suitability 4.5) 1)) /\
    In (row, col) region /\
    (min_area_ha <= Area_Ha cell_size region ->
     In region (extract_best_zones suitability cell_size min_area_ha)).
Proof.
  set (best := Con (raster_ge suitability 4.5) 1).
  assert (Hin : In (row, col) (data_cells best)).
  { apply best_zones_In. eauto. }
  apply (Permutation_in _ (Permutation_sym (RasterToPolygon_partition best))) in Hin.
  apply in_concat in Hin as [region [Hregion Hcellin]].
  exists region. split; [exact Hregion|]. split; [exact Hcellin|].
  intros Harea. unfold extract_best_zones, extract_zones.
  apply filter_In. split; [exact Hregion|]. apply Qleb_le. exact Harea.
Qed.

Lemma best_zones_complete_witness :
  exists region,
    In (0%nat, 2%nat) region /\
    In region (extract_best_zones [[Some 5; Some 1; Some 5]] 200 default_min_area_ha).
Proof.
  destruct (best_zones_complete [[Some 5; Some 1; Some 5]] 200 default_min_area_ha
              0 2 5 eq_refl) as (region & Hregion & Hcell & Hzone).
  - lra.
  - exists region. split; [exact Hcell|]. apply Hzone.
    vm_compute in Hregion. destruct Hregion as [<-|[<-|[]]]; vm_compute; discriminate.
Defined.

(** X6.  A cell of a zone returned for the suitability of four score
    rasters with scores among 1 to 5 has a slope score of 4 or 5, an
    aspect score of 3, 4 or 5 and a solar score of 4 or 5: with the
    weights 0.3, 0.2, 0.4 and 0.1 no lower score reaches 4.5. *)
Theorem best_zone_scores
  (s1 s2 s3 s4 : raster) (mask_path : option (list (list bool))) (out : raster)
  (cell_size min_area_ha : Q) (region : list coord) (row col : nat)
  (R1 : forall r c x, cell_at s1 r c = Some (Some x) -> In x [1; 2; 3; 4; 5])
  (R2 : forall r c x, cell_at s2 r c = Some (Some x) -> In x [1; 2; 3; 4; 5])
  (R3 : forall r c x, cell_at s3 r c = Some (Some x) -> In x [1; 2; 3; 4; 5])
  (R4 : forall r c x, cell_at s4 r c = Some (Some x) -> In x [1; 2; 3; 4; 5])
  (Hout : calculate_suitability s1 s2 s3 s4 mask_path = Ok out)
  (Hzone : In region (extract_best_zones out cell_size min_area_ha))
  (Hcell : In (row, col) region) :
  exists x y z u,
    cell_at s1 row col = Some (Some x) /\ cell_at s2 row col = Some (Some y) /\
    cell_at s3 row col = Some (Some z) /\ cell_at s4 row col = Some (Some u) /\
    In x [4; 5] /\ In y [3; 4; 5] /\ In z [4; 5].
Proof.
  unfold extract_best_zones, extract_zones in Hzone.
  apply filter_In in Hzone as [Hin _].
  set (best := Con (raster_ge out 4.5) 1) in *.
  destruct (components_regions (length (data_cells best)) (data_cells best))
    as [_ [_ Hsub]].
  assert (Hq : In (row, col) (data_cells best)).
  { apply Hsub. apply in_concat. exists region. auto. }
  apply best_zones_In in Hq as [v [Hv Hge]].
  destruct (weighted_overlay_valid script_weights s1 s2 s3 s4 mask_path out row col v
              Hout Hv) as (x & y & z & u & H1 & H2 & H3 & H4 & Hsum & _).
  simpl in Hsum. rewrite Hsum in Hge.
  specialize (R1 row col x H1). specialize (R2 row col y H2).
  specialize (R3 row col z H3). specialize (R4 row col u H4).
  assert (Bx : x <= 5) by (simpl in R1; repeat (destruct R1 as [<-|R1]; [lra|]); destruct R1).
  assert (By : y <= 5) by (simpl in R2; repeat (destruct R2 as [<-|R2]; [lra|]); destruct R2).
  assert (Bz : z <= 5) by (simpl in R3; repeat (destruct R3 as [<-|R3]; [lra|]); destruct R3).
  assert (Bu : u <= 5) by (simpl in R4; repeat (destruct R4 as [<-|R4]; [lra|]); destruct R4).
  exists x, y, z, u. repeat (split; [assumption|]).
  split; [|split].
  - simpl in R1. simpl.
    destruct R1 as [<-|[<-|[<-|[<-|[<-|[]]]]]]; auto; exfalso; lra.
  - simpl in R2. simpl.
    destruct R2 as [<-|[<-|[<-|[<-|[<-|[]]]]]]; auto; exfalso; lra.
  - simpl in R3. simpl.
    destruct R3 as [<-|[<-|[<-|[<-|[<-|[]]]]]]; auto; exfalso; lra.
Qed.

Lemma best_zone_scores_witness :
  exists x y z u,
    cell_at [[Some 5]] 0 0 = Some (Some x) /\ cell_at [[Some 5]] 0 0 = Some (Some y) /\
    cell_at [[Some 5]] 0 0 = Some (Some z) /\ cell_at [[Some 1]] 0 0 = Some (Some u) /\
    In x [4; 5] /\ In y [3; 4; 5] /\ In z [4; 5].
Proof.
  assert (Hr : forall s : Q, In s [1; 2; 3; 4; 5] ->
            forall r c x, cell_at [[Some s]] r c = Some (Some x) -> In x [1; 2; 3; 4; 5]).
  { intros s Hs r c x H. unfold cell_at in H.
    destruct r as [|r]; [|destruct r; discriminate].
    destruct c as [|c]; [|destruct c; discriminate].
    simpl in H. inversion H; subst. exact Hs. }
  apply (best_zone_scores [[Some 5]] [[Some 5]] [[Some 5]] [[Some 1]] None
           [[Some (0.3 * 5 + 0.2 * 5 + 0.4 * 5 + 0.1 * 1)]] 100 0 [(0%nat, 0%nat)] 0 0).
  - apply Hr. simpl. tauto.
  - apply Hr. simpl. tauto.
  - apply Hr. simpl. tauto.
  - apply Hr. simpl. tauto.
  - reflexivity.
  - vm_compute. left. reflexivity.
  - left. reflexivity.
Defined.

(** ** The breaks of the solar sample *)

Lemma position_monotone (n : nat) (q q' : Q) :
  (0 < n)%nat -> q <= q' -> position n q <= position n q'.
Proof.
  intros Hn Hq. unfold position.
  assert (HN : 0 <= inject_Z (Z.of_nat n - 1)).
  { change 0 with (inject_Z 0). rewrite <- Zle_Qle. lia. }
  unfold Qdiv. change (/ 100) with (1 # 100).
  generalize dependent (inject_Z (Z.of_nat n - 1)). intros N HN. nra.
Qed.

Lemma inject_nat_le (k k' : nat) :
  inject_Z (Z.of_nat k) <= inject_Z (Z.of_nat k') <-> (k <= k')%nat.
Proof. rewrite <- Zle_Qle. lia. Qed.

Lemma inject_nat_succ (k : nat) :
  inject_Z (Z.of_nat (S k)) == inject_Z (Z.of_nat k) + 1.
Proof.
  rewrite Nat2Z.inj_succ. unfold Z.succ. rewrite inject_Z_plus. reflexivity.
Qed.

(** A value interpolated between order statistics lies between them. *)
Lemma between_bounds (s : list Q) (q b : Q) :
  StronglySorted Qle s -> between_order_statistics s q b ->
  exists x y, In x s /\ In y s /\ x <= b /\ b <= y.
Proof.
  intros Hs [[x [-> Hb]]|[k [x [y [Hx [Hy [H1 [H2 H3]]]]]]]].
  - exists x, x. repeat split; try (left; reflexivity); lra.
  - exists x, y.
    assert (Hxy : x <= y) by (apply (sorted_nth_le s Hs k (S k) x y); auto).
    split; [eapply nth_error_In; eauto|]. split; [eapply nth_error_In; eauto|].
    set (t := position (length s) q - inject_Z (Z.of_nat k)) in *.
    assert (0 <= t /\ t <= 1) as [T0 T1] by (unfold t; split; lra).
    clearbody t. split; rewrite H3; nra.
Qed.

(** A higher percentile of the same sample is not a lower value. *)
Lemma between_monotone (s : list Q) (q q' b b' : Q) :
  StronglySorted Qle s -> q <= q' ->
  between_order_statistics s q b -> between_order_statistics s q' b' ->
  b <= b'.
Proof.
  intros Hs Hq [[x [-> Hb]]|[k [x [y [Hx [Hy [H1 [H2 H3]]]]]]]]
         [[x' [E' Hb']]|[k' [x' [y' [Hx' [Hy' [H1' [H2' H3']]]]]]]].
  - inversion E'; subst. lra.
  - destruct k'; simpl in Hy'; [discriminate|destruct k'; discriminate].
  - subst s. destruct k; simpl in Hy; [discriminate|destruct k; discriminate].
  - assert (Hn : (0 < length s)%nat).
    { assert (k < length s)%nat by (apply nth_error_Some; congruence). lia. }
    pose proof (position_monotone (length s) q q' Hn Hq) as Hp.
    set (h := position (length s) q) in *.
    set (h' := position (length s) q') in *.
    assert (Hxy : x <= y) by (apply (sorted_nth_le s Hs k (S k) x y); auto).
    assert (Hxy' : x' <= y') by (apply (sorted_nth_le s Hs k' (S k') x' y'); auto).
    destruct (lt_eq_lt_dec k k') as [[Hlt|Heq]|Hgt].
    + assert (Hyx : y <= x') by (apply (sorted_nth_le s Hs (S k) k' y x'); auto).
      rewrite H3, H3'.
      set (t := h - inject_Z (Z.of_nat k)) in *.
      set (t' := h' - inject_Z (Z.of_nat k')) in *.
      assert (0 <= t /\ t <= 1) as [T0 T1] by (unfold t; split; lra).
      assert (0 <= t' /\ t' <= 1) as [T0' T1'] by (unfold t'; split; lra).
      clearbody t t'. nra.
    + subst k'. rewrite Hx in Hx'. rewrite Hy in Hy'.
      inversion Hx'; inversion Hy'; subst x' y'.
      rewrite H3, H3'.
      set (K := inject_Z (Z.of_nat k)) in *. clearbody K h h'. nra.
    + assert (Hk : inject_Z (Z.of_nat k') + 1 <= inject_Z (Z.of_nat k)).
      { rewrite <- inject_nat_succ. apply inject_nat_le. lia. }
      assert (Eh : h == inject_Z (Z.of_nat k)) by lra.
      assert (Eh' : h' == inject_Z (Z.of_nat k') + 1) by lra.
      assert (Ek : k = S k').
      { assert (Hle : inject_Z (Z.of_nat k) <= inject_Z (Z.of_nat (S k'))).
        { rewrite inject_nat_succ. lra. }
        apply inject_nat_le in Hle. lia. }
      subst k. rewrite Hx in Hy'. inversion Hy'; subst y'.
      rewrite H3, H3'.
      set (K := inject_Z (Z.of_nat k')) in *.
      set (K1 := inject_Z (Z.of_nat (S k'))) in *.
      clearbody K K1 h h'. nra.
Qed.

(** The six breaks of a sample that is not empty: in ascending order,
    the first one the least and the last one the greatest value of the
    sample. *)
Lemma solar_breaks_chain (nodata_value : Q) (solar : raster) :
  solar_sample nodata_value solar <> [] ->
  exists b0 b1 b2 b3 b4 b5,
    solar_breaks nodata_value solar = Ok [b0; b1; b2; b3; b4; b5] /\
    b0 <= b1 /\ b1 <= b2 /\ b2 <= b3 /\ b3 <= b4 /\ b4 <= b5 /\
    (forall x, In x (solar_sample nodata_value solar) -> b0 <= x /\ x <= b5) /\
    (exists x, In x (solar_sample nodata_value solar) /\ b0 == x) /\
    (exists x, In x (solar_sample nodata_value solar) /\ b5 == x).
Proof.
  intros Hne.
  destruct (solar_breaks_ok nodata_value solar Hne)
    as (b0 & b1 & b2 & b3 & b4 & b5 & Hb & B0 & B1 & B2 & B3 & B4 & B5).
  pose proof (sort_sorted (solar_sample nodata_value solar)) as Hs.
  destruct (between_at_zero _ 0 b0 Hs (Qeq_refl 0) B0) as [Hmin [m [Hm Hbm]]].
  destruct (between_at_hundred _ 100 b5 Hs (Qeq_refl 100) B5) as [Hmax [M [HM HbM]]].
  exists b0, b1, b2, b3, b4, b5. split; [exact Hb|].
  split; [apply (between_monotone _ 0 20 b0 b1 Hs); auto; lra|].
  split; [apply (between_monotone _ 20 40 b1 b2 Hs); auto; lra|].
  split; [apply (between_monotone _ 40 60 b2 b3 Hs); auto; lra|].
  split; [apply (between_monotone _ 60 80 b3 b4 Hs); auto; lra|].
  split; [apply (between_monotone _ 80 100 b4 b5 Hs); auto; lra|].
  split; [|split].
  - intros x Hx. apply (proj2 (In_sort _ _)) in Hx. split; auto.
  - exists m. split; [apply (proj1 (In_sort _ _)); exact Hm|exact Hbm].
  - exists M. split; [apply (proj1 (In_sort _ _)); exact HM|exact HbM].
Qed.

Lemma quantile_table_scores (b0 b1 b2 b3 b4 b5 v s : Q) :
  remap_lookup (quantile_table b0 b1 b2 b3 b4 b5) v = Some s ->
  In s [1; 2; 3; 4; 5].
Proof.
  unfold quantile_table. rewrite !remap_lookup_cons.
  cbn [remap_lookup lo hi new_value]. intros H. simpl.
  repeat match type of H with
         | (if ?c then _ else _) = _ => destruct c
         end;
    try discriminate; inversion H; tauto.
Qed.

(** The greatest value gets the score 5 when the breaks ascend. *)
Lemma quantile_table_top (b0 b1 b2 b3 b4 b5 v : Q) :
  b0 <= b1 -> b1 <= b2 -> b2 <= b3 -> b3 <= b4 -> b4 <= b5 -> v == b5 ->
  remap_lookup (quantile_table b0 b1 b2 b3 b4 b5) v = Some 5.
Proof.
  intros H01 H12 H23 H34 H45 Hv. unfold quantile_table.
  rewrite !remap_lookup_cons. cbn [remap_lookup lo hi new_value].
  assert (E1 : Qltb v b1 = false) by (apply Qltb_ge; lra).
  assert (E2 : Qltb v b2 = false) by (apply Qltb_ge; lra).
  assert (E3 : Qltb v b3 = false) by (apply Qltb_ge; lra).
  assert (E4 : Qltb v b4 = false) by (apply Qltb_ge; lra).
  assert (E5 : Qleb b4 v = true) by (apply Qleb_le; lra).
  assert (E6 : Qleb v b5 = true) by (apply Qleb_le; lra).
  rewrite E1, E2, E3, E4, E5, E6, !andb_false_r. reflexivity.
Qed.

(** X7.  When the raster's NoData value is not positive and some cell
    holds a positive value, the six breaks of
    [calculate_solar_radiation] ascend, so that no range of its table
    has its bounds reversed; the first break is the least and the last
    break the greatest positive value of the raster. *)
Theorem solar_breaks_ascend (nodata_value : Q) (solar : raster)
  (Hnodata : nodata_value <= 0)
  (Hvalid : exists row col v, cell_at solar row col = Some (Some v) /\ 0 < v) :
  exists b0 b1 b2 b3 b4 b5,
    solar_breaks nodata_value solar = Ok [b0; b1; b2; b3; b4; b5] /\
    b0 <= b1 /\ b1 <= b2 /\ b2 <= b3 /\ b3 <= b4 /\ b4 <= b5 /\
    (forall row col v,
        cell_at solar row col = Some (Some v) -> 0 < v -> b0 <= v /\ v <= b5) /\
    (exists row col v, cell_at solar row col = Some (Some v) /\ 0 < v /\ b0 == v) /\
    (exists row col v, cell_at solar row col = Some (Some v) /\ 0 < v /\ b5 == v).
Proof.
  pose proof (solar_sample_positive_values nodata_value solar Hnodata) as Es.
  destruct (solar_breaks_chain nodata_value solar)
    as (b0 & b1 & b2 & b3 & b4 & b5 & Hb & H01 & H12 & H23 & H34 & H45 &
        Hall & [m [Hm Hbm]] & [M [HM HbM]]).
  { rewrite Es. apply positive_values_not_nil. exact Hvalid. }
  exists b0, b1, b2, b3, b4, b5.
  repeat (split; [assumption|]). split; [|split].
  - intros row col v Hc Hv. apply Hall. rewrite Es. apply In_positive_values. eauto.
  - rewrite Es in Hm. apply In_positive_values in Hm as (r & c & Hc & Hp).
    exists r, c, m. auto.
  - rewrite Es in HM. apply In_positive_values in HM as (r & c & Hc & Hp).
    exists r, c, M. auto.
Qed.

Lemma solar_breaks_ascend_witness :
  exists b0 b1 b2 b3 b4 b5,
    solar_breaks (-9999) [[Some 4; None]; [Some 1; Some 9]] = Ok [b0; b1; b2; b3; b4; b5] /\
    b0 <= b1 /\ b4 <= b5 /\ b0 <= 4 /\ 4 <= b5.
Proof.
  destruct (solar_breaks_ascend (-9999) [[Some 4; None]; [Some 1; Some 9]])
    as (b0 & b1 & b2 & b3 & b4 & b5 & Hb & H01 & _ & _ & _ & H45 & Hall & _).
  - lra.
  - exists 0%nat, 0%nat, 4. split; [reflexivity|lra].
  - exists b0, b1, b2, b3, b4, b5. split; [exact Hb|].
    destruct (Hall 0%nat 0%nat 4 eq_refl) as [Hlo Hhi]; [lra|]. auto.
Defined.



(** X9.  When the raster's NoData value is not positive, every cell with
    data holds a positive value and there is such a cell,
    [calculate_solar_radiation] does not fail: a cell with data gets one
    of the scores 1 to 5, a greatest value gets the score 5, and a cell
    without data stays without data. *)
Theorem solar_scores_positive_raster (nodata_value : Q) (solar : raster)
  (Hnodata : nodata_value <= 0)
  (Hvalid : exists row col v, cell_at solar row col = Some (Some v))
  (Hpos : forall row col v, cell_at solar row col = Some (Some v) -> 0 < v) :
  exists out,
    calculate_solar_radiation nodata_value solar = Ok out /\
    (forall row col v,
        cell_at solar row col = Some (Some v) ->
        exists s, cell_at out row col = Some (Some s) /\ In s [1; 2; 3; 4; 5]) /\
    (forall row col v,
        cell_at solar row col = Some (Some v) ->
        (forall row' col' v', cell_at solar row' col' = Some (Some v') -> v' <= v) ->
        cell_at out row col = Some (Some 5)) /\
    (forall row col, cell_at solar row col = Some None -> cell_at out row col = Some None).
Proof.
  pose proof (solar_sample_positive_values nodata_value solar Hnodata) as Es.
  assert (Hvalid' : exists row col v, cell_at solar row col = Some (Some v) /\ 0 < v).
  { destruct Hvalid as (r & c & v & Hc). exists r, c, v. split; [exact Hc|eauto]. }
  destruct (solar_breaks_chain nodata_value solar)
    as (b0 & b1 & b2 & b3 & b4 & b5 & Hb & H01 & H12 & H23 & H34 & H45 &
        Hall & _ & [M [HM HbM]]).
  { rewrite Es. apply positive_values_not_nil. exact Hvalid'. }
  assert (Hin : forall row col v, cell_at solar row col = Some (Some v) ->
                                  In v (solar_sample nodata_value solar)).
  { intros row col v Hc. rewrite Es. apply In_positive_values. eauto. }
  destruct (Reclassify_ok solar (quantile_table b0 b1 b2 b3 b4 b5)) as [out [Hout Hcells]].
  { intros row col v Hc. destruct (Hall v (Hin row col v Hc)) as [Hlo Hhi].
    apply quantile_table_covers; assumption. }
  exists out. split; [unfold calculate_solar_radiation; rewrite Hb; exact Hout|].
  split; [|split].
  - intros row col v Hc. destruct (Hall v (Hin row col v Hc)) as [Hlo Hhi].
    destruct (remap_lookup (quantile_table b0 b1 b2 b3 b4 b5) v) as [s|] eqn:E.
    + exists s. split; [|eapply quantile_table_scores; exact E].
      rewrite Hcells, Hc. unfold option_map, score_of. rewrite E. reflexivity.
    + exfalso. exact (quantile_table_covers b0 b1 b2 b3 b4 b5 v Hlo Hhi E).
  - intros row col v Hc Hgreatest.
    rewrite Hcells, Hc. unfold option_map, score_of.
    rewrite (quantile_table_top b0 b1 b2 b3 b4 b5 v); auto.
    rewrite Es in HM. apply In_positive_values in HM as (r & c & HcM & _).
    pose proof (Hgreatest r c M HcM) as HMv.
    destruct (Hall v (Hin row col v Hc)) as [_ Hhi]. lra.
  - intros row col Hc. rewrite Hcells, Hc. reflexivity.
Qed.

Lemma solar_scores_positive_raster_witness :
  exists out,
    calculate_solar_radiation (-9999) [[Some 3; None; Some 8]] = Ok out /\
    cell_at out 0 2 = Some (Some 5) /\ cell_at out 0 1 = Some None.
Proof.
  destruct (solar_scores_positive_raster (-9999) [[Some 3; None; Some 8]])
    as (out & Hout & _ & Htop & Hnone).
  - lra.
  - exists 0%nat, 0%nat, 3. reflexivity.
  - intros row col v H. unfold cell_at in H.
    destruct row as [|row]; [|destruct row; discriminate].
    destruct col as [|[|[|col]]]; simpl in H;
      try discriminate; try (inversion H; lra).
    destruct col; discriminate.
  - exists out. split; [exact Hout|]. split.
    + apply (Htop 0%nat 2%nat 8 eq_refl).
      intros row col v H. unfold cell_at in H.
      destruct row as [|row]; [|destruct row; discriminate].
      destruct col as [|[|[|col]]]; simpl in H;
        try discriminate; try (inversion H; lra).
      destruct col; discriminate.
    + apply (Hnone 0%nat 1%nat eq_refl).
Defined.

(** ** The fixed tables *)

(** A found score is the score of a range that holds the value. *)
Lemma remap_lookup_found (t : remap) :
  forall v s,
    remap_lookup t v = Some s ->
    exists k rg,
      nth_error t k = Some rg /\ s = new_value rg /\
      lo rg <= v /\ (v < hi rg \/ (S k = length t /\ v <= hi rg)).
Proof.
  induction t as [|rg t IH]; intros v s H; [discriminate|].
  destruct t as [|next t].
  - simpl in H.
    destruct (Qleb (lo rg) v) eqn:E1; [|discriminate].
    destruct (Qleb v (hi rg)) eqn:E2; [|discriminate].
    inversion H; subst. exists 0%nat, rg.
    apply Qleb_le in E1. apply Qleb_le in E2. auto 6.
  - rewrite remap_lookup_cons in H.
    destruct (Qleb (lo rg) v && Qltb v (hi rg)) eqn:E.
    + apply andb_true_iff in E as [E1 E2].
      inversion H; subst. exists 0%nat, rg.
      apply Qleb_le in E1. apply Qltb_lt in E2. auto 6.
    + destruct (IH v s H) as (k & rg' & Hk & Hs & Hlo & Hhi).
      exists (S k), rg'. repeat split; auto.
      destruct Hhi as [Hhi|[Hlen Hhi]]; [left; exact Hhi|right].
      split; [simpl in *; lia|exact Hhi].
Qed.

(** In a contiguous table an earlier range ends where a later one starts,
    or below. *)
Lemma contiguous_order (t : remap) :
  forall k k' rg rg',
    contiguous t -> (k < k')%nat ->
    nth_error t k = Some rg -> nth_error t k' = Some rg' -> hi rg <= lo rg'.
Proof.
  induction t as [|r0 t IH]; intros k k' rg rg' Hc Hlt Hk Hk'.
  - destruct k; discriminate.
  - destruct k' as [|k']; [lia|]. simpl in Hk'. destruct k as [|k]; simpl in Hk.
    + inversion Hk; subst r0. eapply contiguous_above; eauto.
    + apply (IH k k' rg rg'); auto; [eapply contiguous_tail; eauto|lia].
Qed.

Lemma descending_nth (t : remap) :
  descending t ->
  forall k k' rg rg',
    (k <= k')%nat -> nth_error t k = Some rg -> nth_error t k' = Some rg' ->
    new_value rg' <= new_value rg.
Proof.
  induction 1 as [|r0 t Hs IH Hall]; intros k k' rg rg' Hle Hk Hk'.
  - destruct k; discriminate.
  - destruct k as [|k], k' as [|k']; simpl in Hk, Hk'.
    + inversion Hk; inversion Hk'; subst. lra.
    + inversion Hk; subst r0. rewrite Forall_forall in Hall.
      apply Hall. eapply nth_error_In; eauto.
    + lia.
    + apply (IH k k'); auto. lia.
Qed.

(** In a contiguous table whose scores descend, a greater value does not
    get a greater score. *)
Lemma remap_lookup_descending (t : remap) (v v' s s' : Q) :
  contiguous t -> descending t -> v <= v' ->
  remap_lookup t v = Some s -> remap_lookup t v' = Some s' -> s' <= s.
Proof.
  intros Hc Hd Hv H H'.
  destruct (remap_lookup_found t v s H) as (k & rg & Hk & -> & Hlo & Hhi).
  destruct (remap_lookup_found t v' s' H') as (k' & rg' & Hk' & -> & Hlo' & Hhi').
  apply (descending_nth t Hd k k'); auto.
  destruct (le_lt_dec k k') as [Hle|Hlt]; [exact Hle|exfalso].
  pose proof (contiguous_order t k' k rg' rg Hc Hlt Hk' Hk) as Hord.
  assert (Hklen : (k < length t)%nat) by (apply nth_error_Some; congruence).
  destruct Hhi' as [Hhi'|[Hlast _]]; [lra|lia].
Qed.

Lemma distance_remap_contiguous : contiguous distance_remap.
Proof. simpl. repeat split; reflexivity. Qed.

(** X10.  A steeper slope never gets a better slope score, and a longer
    distance to the roads never gets a better distance score. *)
Theorem scores_fall_with_value (v v' s s' : Q) (Hv : v <= v') :
  (remap_lookup slope_remap v = Some s ->
   remap_lookup slope_remap v' = Some s' -> s' <= s) /\
  (remap_lookup distance_remap v = Some s ->
   remap_lookup distance_remap v' = Some s' -> s' <= s).
Proof.
  split.
  - apply remap_lookup_descending; auto; [apply slope_remap_contiguous|].
    unfold descending, slope_remap.
    repeat (constructor; [|repeat (constructor; [simpl; lra|]); constructor]).
    constructor.
  - apply remap_lookup_descending; auto; [apply distance_remap_contiguous|].
    unfold descending, distance_remap.
    repeat (constructor; [|repeat (constructor; [simpl; lra|]); constructor]).
    constructor.
Qed.

Lemma scores_fall_with_value_witness : (2 : Q) <= 4 /\ (1 : Q) <= 5.
Proof.
  destruct (scores_fall_with_value 7 16 4 2) as [Hslope _]; [lra|].
  destruct (scores_fall_with_value 100 5000 5 1) as [_ Hdist]; [lra|].
  split; [apply Hslope|apply Hdist]; reflexivity.
Defined.

Lemma aspect_lookup (v : Q) :
  -1 <= v -> v < 360 ->
  exists s, remap_lookup aspect_remap v = Some s /\ In s [2; 3; 4; 5] /\
            (v < 0 -> s = 3) /\ (135 <= v -> v < 225 -> s = 5).
Proof.
  intros Hlo Hhi. unfold aspect_remap.
  rewrite !remap_lookup_cons. cbn [remap_lookup lo hi new_value].
  destruct (Qlt_le_dec v 0) as [H0|H0].
  { assert (E0 : Qleb 0 v = false) by (apply Qleb_gt; exact H0).
    assert (E1 : Qleb 45 v = false) by (apply Qleb_gt; lra).
    assert (E2 : Qleb 135 v = false) by (apply Qleb_gt; lra).
    assert (E3 : Qleb 225 v = false) by (apply Qleb_gt; lra).
    assert (E4 : Qleb 315 v = false) by (apply Qleb_gt; lra).
    assert (E5 : Qleb (-1) v = true) by (apply Qleb_le; exact Hlo).
    assert (E6 : Qleb v 0 = true) by (apply Qleb_le; lra).
    rewrite E0, E1, E2, E3, E4, E5, E6. simpl.
    exists 3. repeat split; auto; intros; exfalso; lra. }
  assert (E0 : Qleb 0 v = true) by (apply Qleb_le; exact H0). rewrite E0.
  destruct (Qlt_le_dec v 45) as [H45|H45].
  { apply Qltb_lt in H45 as E. rewrite E. simpl.
    exists 2. repeat split; auto; intros; exfalso; lra. }
  apply Qltb_ge in H45 as E. rewrite E. clear E.
  assert (E1 : Qleb 45 v = true) by (apply Qleb_le; exact H45). rewrite E1.
  destruct (Qlt_le_dec v 135) as [H135|H135].
  { apply Qltb_lt in H135 as E. rewrite E. simpl.
    exists 4. repeat split; auto; intros; exfalso; lra. }
  apply Qltb_ge in H135 as E. rewrite E. clear E.
  assert (E2 : Qleb 135 v = true) by (apply Qleb_le; exact H135). rewrite E2.
  destruct (Qlt_le_dec v 225) as [H225|H225].
  { apply Qltb_lt in H225 as E. rewrite E. simpl.
    exists 5. repeat split; auto; intros; exfalso; lra. }
  apply Qltb_ge in H225 as E. rewrite E. clear E.
  assert (E3 : Qleb 225 v = true) by (apply Qleb_le; exact H225). rewrite E3.
  destruct (Qlt_le_dec v 315) as [H315|H315].
  { apply Qltb_lt in H315 as E. rewrite E. simpl.
    exists 4. repeat split; auto; intros; exfalso; lra. }
  apply Qltb_ge in H315 as E. rewrite E. clear E.
  assert (E4 : Qleb 315 v = true) by (apply Qleb_le; exact H315). rewrite E4.
  apply Qltb_lt in Hhi as E. rewrite E. simpl.
  exists 2. repeat split; auto; intros; exfalso; lra.
Qed.

(** X11.  When every value of the aspect raster lies at or above -1 and
    below 360, [calculate_aspect] does not fail: a cell with data gets
    one of the scores 2 to 5 and never the score 1, a flat cell (a value
    below 0) gets 3, a cell facing between 135 and 225 degrees gets 5,
    and a cell without data stays without data. *)
Theorem aspect_table_covers_domain (aspect : raster)
  (Hdom : forall row col v,
      cell_at aspect row col = Some (Some v) -> -1 <= v /\ v < 360) :
  exists out,
    calculate_aspect aspect = Ok out /\
    (forall row col v,
        cell_at aspect row col = Some (Some v) ->
        exists s, cell_at out row col = Some (Some s) /\ In s [2; 3; 4; 5] /\
                  (v < 0 -> s = 3) /\ (135 <= v -> v < 225 -> s = 5)) /\
    (forall row col, cell_at aspect row col = Some None -> cell_at out row col = Some None).
Proof.
  destruct (Reclassify_ok aspect aspect_remap) as [out [Hout Hcells]].
  - intros row col v Hcell Hnone.
    destruct (Hdom row col v Hcell) as [Hlo Hhi].
    destruct (aspect_lookup v Hlo Hhi) as [s [Hs _]]. congruence.
  - exists out. split; [exact Hout|]. split.
    + intros row col v Hcell.
      destruct (Hdom row col v Hcell) as [Hlo Hhi].
      destruct (aspect_lookup v Hlo Hhi) as [s [Hs Hrest]].
      exists s. split; [|exact Hrest].
      rewrite Hcells, Hcell. unfold option_map, score_of. rewrite Hs. reflexivity.
    + intros row col Hcell. rewrite Hcells, Hcell. reflexivity.
Qed.

Lemma aspect_table_covers_domain_witness :
  exists out,
    calculate_aspect [[Some (-1); None; Some 180]] = Ok out /\
    cell_at out 0 0 = Some (Some 3) /\ cell_at out 0 2 = Some (Some 5).
Proof.
  destruct (aspect_table_covers_domain [[Some (-1); None; Some 180]])
    as (out & Hout & Hval & _).
  - intros row col v H. unfold cell_at in H.
    destruct row as [|row]; [|destruct row; discriminate].
    destruct col as [|[|[|col]]]; simpl in H;
      try discriminate; try (inversion H; subst; split; lra).
    destruct col; discriminate.
  - exists out. split; [exact Hout|].
    destruct (Hval 0%nat 0%nat (-1) eq_refl) as (s & Hs & _ & Hflat & _).
    destruct (Hval 0%nat 2%nat 180 eq_refl) as (s' & Hs' & _ & _ & Hsouth).
    rewrite Hflat in Hs by lra. rewrite Hsouth in Hs' by lra. auto.
Defined.

Lemma distance_lookup (v : Q) :
  0 <= v -> v <= 100000 ->
  exists s, remap_lookup distance_remap v = Some s /\ In s [1; 2; 3; 4; 5] /\
            (v < 500 -> s = 5) /\ (3000 <= v -> s = 1).
Proof.
  intros H0 Hmax.
  pose proof distance_remap_contiguous as Hc.
  destruct (Qlt_le_dec v 500) as [H1|H1].
  { exists 5. split; [|split; [simpl; tauto|split; intros; try reflexivity; exfalso; lra]].
    apply (remap_lookup_contiguous distance_remap 0 (mkRange 0 500 5) v Hc eq_refl);
      simpl; auto. }
  destruct (Qlt_le_dec v 1000) as [H2|H2].
  { exists 4. split; [|split; [simpl; tauto|split; intros; try reflexivity; exfalso; lra]].
    apply (remap_lookup_contiguous distance_remap 1 (mkRange 500 1000 4) v Hc eq_refl);
      simpl; auto. }
  destruct (Qlt_le_dec v 2000) as [H3|H3].
  { exists 3. split; [|split; [simpl; tauto|split; intros; try reflexivity; exfalso; lra]].
    apply (remap_lookup_contiguous distance_remap 2 (mkRange 1000 2000 3) v Hc eq_refl);
      simpl; auto. }
  destruct (Qlt_le_dec v 3000) as [H4|H4].
  { exists 2. split; [|split; [simpl; tauto|split; intros; try reflexivity; exfalso; lra]].
    apply (remap_lookup_contiguous distance_remap 3 (mkRange 2000 3000 2) v Hc eq_refl);
      simpl; auto. }
  exists 1. split; [|split; [simpl; tauto|split; intros; try reflexivity; exfalso; lra]].
  apply (remap_lookup_contiguous distance_remap 4 (mkRange 3000 100000 1) v Hc eq_refl);
    simpl; auto.
Qed.

(** X12.  When every value of the distance raster lies between 0 and
    100000, [calculate_distance_to_roads] does not fail: a cell with
    data gets one of the scores 1 to 5, the score 5 below 500 and the
    score 1 from 3000 on, and a cell without data stays without data. *)
Theorem distance_table_covers_domain (distance : raster)
  (Hdom : forall row col v,
      cell_at distance row col = Some (Some v) -> 0 <= v /\ v <= 100000) :
  exists out,
    calculate_distance_to_roads distance = Ok out /\
    (forall row col v,
        cell_at distance row col = Some (Some v) ->
        exists s, cell_at out row col = Some (Some s) /\ In s [1; 2; 3; 4; 5] /\
                  (v < 500 -> s = 5) /\ (3000 <= v -> s = 1)) /\
    (forall row col,
        cell_at distance row col = Some None -> cell_at out row col = Some None).
Proof.
  destruct (Reclassify_ok distance distance_remap) as [out [Hout Hcells]].
  - intros row col v Hcell Hnone.
    destruct (Hdom row col v Hcell) as [Hlo Hhi].
    destruct (distance_lookup v Hlo Hhi) as [s [Hs _]]. congruence.
  - exists out. split; [exact Hout|]. split.
    + intros row col v Hcell.
      destruct (Hdom row col v Hcell) as [Hlo Hhi].
      destruct (distance_lookup v Hlo Hhi) as [s [Hs Hrest]].
      exists s. split; [|exact Hrest].
      rewrite Hcells, Hcell. unfold option_map, score_of. rewrite Hs. reflexivity.
    + intros row col Hcell. rewrite Hcells, Hcell. reflexivity.
Qed.

Lemma distance_table_covers_domain_witness :
  exists out,
    calculate_distance_to_roads [[Some 120; None; Some 100000]] = Ok out /\
    cell_at out 0 0 = Some (Some 5) /\ cell_at out 0 2 = Some (Some 1).
Proof.
  destruct (distance_table_covers_domain [[Some 120; None; Some 100000]])
    as (out & Hout & Hval & _).
  - intros row col v H. unfold cell_at in H.
    destruct row as [|row]; [|destruct row; discriminate].
    destruct col as [|[|[|col]]]; simpl in H;
      try discriminate; try (inversion H; subst; split; lra).
    destruct col; discriminate.
  - exists out. split; [exact Hout|].
    destruct (Hval 0%nat 0%nat 120 eq_refl) as (s & Hs & _ & Hnear & _).
    destruct (Hval 0%nat 2%nat 100000 eq_refl) as (s' & Hs' & _ & _ & Hfar).
    rewrite Hnear in Hs by lra. rewrite Hfar in Hs' by lra. auto.
Defined.

(** * Properties of a run *)

(** ** Files *)

Lemma path_eqb_eq (p q : path) : path_eqb p q = true <-> p = q.
Proof.
  unfold path_eqb. destruct (list_eq_dec string_dec p q); split; congruence.
Qed.

Lemma path_eqb_refl (p : path) : path_eqb p p = true.
Proof. apply path_eqb_eq. reflexivity. Qed.

Lemma lookup_head (p q : path) (d : data) (f : files) :
  lookup q ((p, d) :: f) = if path_eqb p q then Some d else lookup q f.
Proof. reflexivity. Qed.

Lemma present_head (p q : path) (d : data) (f : files) :
  present q ((p, d) :: f) = path_eqb p q || present q f.
Proof.
  unfold present. rewrite lookup_head. destruct (path_eqb p q); reflexivity.
Qed.

Lemma present_lookup (p : path) (f : files) :
  present p f = true <-> exists d, lookup p f = Some d.
Proof.
  unfold present. destruct (lookup p f) as [d|]; split; eauto; try discriminate.
  intros [d H]. discriminate.
Qed.

Lemma keeps_refl (f : files) : keeps f f.
Proof. intros p d H. exact H. Qed.

Lemma keeps_trans (f g h : files) : keeps f g -> keeps g h -> keeps f h.
Proof. intros H1 H2 p d H. apply H2, H1, H. Qed.

Lemma keeps_grows (f g : files) : keeps f g -> grows f g.
Proof.
  intros H p Hp. apply present_lookup in Hp as [d Hd].
  apply present_lookup. exists d. apply H. exact Hd.
Qed.

Lemma grows_refl (f : files) : grows f f.
Proof. intros p H. exact H. Qed.

Lemma grows_trans (f g h : files) : grows f g -> grows g h -> grows f h.
Proof. intros H1 H2 p H. apply H2, H1, H. Qed.

Lemma grows_save (p : path) (d : data) (f : files) : grows f ((p, d) :: f).
Proof. intros q H. rewrite present_head, H. apply orb_true_r. Qed.

Lemma mkdir_keeps (f : files) (p : path) : keeps f (mkdir f p).
Proof.
  unfold mkdir. destruct (present p f) eqn:E; [apply keeps_refl|].
  intros q d H. rewrite lookup_head.
  destruct (path_eqb p q) eqn:Epq; [|exact H].
  apply path_eqb_eq in Epq. subst q. unfold present in E. rewrite H in E. discriminate.
Qed.

Lemma mkdir_present (f : files) (p : path) : present p (mkdir f p) = true.
Proof.
  unfold mkdir. destruct (present p f) eqn:E; [exact E|].
  rewrite present_head, path_eqb_refl. reflexivity.
Qed.

Lemma mkdir_new (f : files) (p q : path) (d : data) :
  lookup q (mkdir f p) = Some d -> lookup q f = Some d \/ (q = p /\ d = Directory).
Proof.
  unfold mkdir. destruct (present p f); [auto|].
  rewrite lookup_head. destruct (path_eqb p q) eqn:E; [|auto].
  apply path_eqb_eq in E. intros H. inversion H. auto.
Qed.

Lemma mkdirs_keeps (l : list path) : forall f, keeps f (fold_left mkdir l f).
Proof.
  induction l as [|p l IH]; intros f; simpl; [apply keeps_refl|].
  eapply keeps_trans; [apply mkdir_keeps|apply IH].
Qed.

Lemma mkdirs_present (l : list path) :
  forall f p, In p l -> present p (fold_left mkdir l f) = true.
Proof.
  induction l as [|q l IH]; intros f p Hin; [destruct Hin|].
  simpl. destruct Hin as [->|Hin]; [|apply IH; exact Hin].
  apply (keeps_grows _ _ (mkdirs_keeps l (mkdir f p))). apply mkdir_present.
Qed.

Lemma mkdirs_new (l : list path) :
  forall f q d,
    lookup q (fold_left mkdir l f) = Some d ->
    lookup q f = Some d \/ (In q l /\ d = Directory).
Proof.
  induction l as [|p l IH]; intros f q d H; simpl in H; [auto|].
  destruct (IH _ _ _ H) as [H'|[Hin Hd]].
  - destruct (mkdir_new f p q d H') as [H''|[-> Hd]]; [auto|].
    right. split; [left; reflexivity|exact Hd].
  - right. split; [right; exact Hin|exact Hd].
Qed.

(** The paths that [makedirs] may create: the path and the paths above. *)
Lemma In_prefixes (p q : path) :
  In q (map (fun n => firstn n p) (seq 1 (length p))) <->
  exists n, (1 <= n <= length p)%nat /\ q = firstn n p.
Proof.
  rewrite in_map_iff. split.
  - intros [n [<- Hn]]. apply in_seq in Hn. exists n. split; [lia|reflexivity].
  - intros [n [Hn ->]]. exists n. split; [reflexivity|]. apply in_seq. lia.
Qed.

Lemma firstn_above (n : nat) (p : path) : above (firstn n p) p.
Proof. exists (skipn n p). symmetry. apply firstn_skipn. Qed.

(** ** [setup_environment] *)

(** The loop over the directories: each one exists afterwards, nothing
    that existed is touched, and what is new is a directory at or above
    one of them. *)
Lemma make_directories (ws : path) (dirs : list path) :
  forall w,
    (forall d, In d dirs -> d <> []) ->
    exists f',
      for_each dirs
        (fun directory =>
           let dir_path := ws ++ directory in
           found <-- path_exists dir_path ;;
           if negb found then makedirs dir_path else ret tt) w
      = (inl tt, set_fs w f') /\
      keeps (fs w) f' /\
      (forall d, In d dirs -> present (ws ++ d) f' = true) /\
      (forall q x, lookup q f' = Some x ->
                   lookup q (fs w) = Some x \/
                   (x = Directory /\ exists d, In d dirs /\ above q (ws ++ d))) /\
      ((forall d, In d dirs -> present (ws ++ d) (fs w) = true) -> f' = fs w).
Proof.
  set (body := fun directory : path =>
                 let dir_path := ws ++ directory in
                 found <-- path_exists dir_path ;;
                 if negb found then makedirs dir_path else ret tt).
  assert (Hbody : forall d w,
             body d w =
             if present (ws ++ d) (fs w) then (inl tt, w)
             else (inl tt,
                   set_fs w (fold_left mkdir
                               (map (fun n => firstn n (ws ++ d))
                                    (seq 1 (length (ws ++ d)))) (fs w)))).
  { intros d w. unfold body, io_bind, path_exists.
    destruct (present (ws ++ d) (fs w)); reflexivity. }
  clearbody body.
  induction dirs as [|d dirs IH]; intros w Hne.
  - exists (fs w). destruct w; simpl.
    split; [reflexivity|]. split; [apply keeps_refl|].
    split; [intros d []|]. split; [intros q x H; left; exact H|reflexivity].
  - assert (Hne' : forall d', In d' dirs -> d' <> []).
    { intros d' H. apply Hne. right. exact H. }
    cbn [for_each]. unfold io_bind. rewrite Hbody.
    destruct (present (ws ++ d) (fs w)) eqn:Ep.
    + destruct (IH w Hne') as (f' & Hrun & Hk & Hp & Hn & Hsame).
      exists f'. rewrite Hrun. split; [reflexivity|].
      split; [exact Hk|]. split; [|split].
      * intros d' [<-|Hd']; [|apply Hp; exact Hd'].
        apply (keeps_grows _ _ Hk). exact Ep.
      * intros q x Hq. destruct (Hn q x Hq) as [H|(Hx & d' & Hd' & Ha)]; [auto|].
        right. split; [exact Hx|]. exists d'. split; [right; exact Hd'|exact Ha].
      * intros Hall. apply Hsame. intros d' Hd'. apply Hall. right. exact Hd'.
    + set (f1 := fold_left mkdir
                   (map (fun n => firstn n (ws ++ d)) (seq 1 (length (ws ++ d)))) (fs w)).
      destruct (IH (set_fs w f1) Hne') as (f' & Hrun & Hk & Hp & Hn & _).
      exists f'. rewrite Hrun. split; [destruct w; reflexivity|].
      assert (Hk1 : keeps (fs w) f1) by apply mkdirs_keeps.
      assert (Hfs : fs (set_fs w f1) = f1) by (destruct w; reflexivity).
      rewrite Hfs in Hk, Hn.
      assert (Hlen : (1 <= length (ws ++ d))%nat).
      { rewrite length_app. specialize (Hne d (or_introl eq_refl)).
        destruct d; [congruence|simpl; lia]. }
      split; [eapply keeps_trans; eauto|]. split; [|split].
      * intros d' [<-|Hd']; [|apply Hp; exact Hd'].
        apply (keeps_grows _ _ Hk). apply mkdirs_present.
        apply In_prefixes. exists (length (ws ++ d)). split; [lia|].
        symmetry. apply firstn_all.
      * intros q x Hq. destruct (Hn q x Hq) as [H|(Hx & d' & Hd' & Ha)].
        -- destruct (mkdirs_new _ _ _ _ H) as [H'|[Hin Hx]]; [auto|].
           right. split; [exact Hx|]. exists d. split; [left; reflexivity|].
           apply In_prefixes in Hin as [n [_ ->]]. apply firstn_above.
        -- right. split; [exact Hx|]. exists d'. split; [right; exact Hd'|exact Ha].
      * intros Hall. rewrite (Hall d (or_introl eq_refl)) in Ep. discriminate.
Qed.

Lemma setup_environment_run (ws : path) (w : world) :
  setup_environment ws w =
  if present ws (fs w)
  then if String.eqb (spatial_extension w) "Available"
       then for_each [["results"]; ["results"; "scores"]; ["results"; "output_zones"]]%string
              (fun directory =>
                 let dir_path := ws ++ directory in
                 found <-- path_exists dir_path ;;
                 if negb found then makedirs dir_path else ret tt)
              (mkWorld (fs w) (Some ws) true (spatial_extension w) true
                       (stdout w ++ [[Str "Setting up environment..."]]))
       else (inr (RuntimeError [Str "Spatial Analyst license is not available"]),
             mkWorld (fs w) (Some ws) true (spatial_extension w)
                     (spatial_checked_out w)
                     (stdout w ++ [[Str "Setting up environment..."]]))
  else (inr (ValueError [Str "Workspace path does not exist: "; PathText ws]),
        mkWorld (fs w) (env_workspace w) (env_overwriteOutput w)
                (spatial_extension w) (spatial_checked_out w)
                (stdout w ++ [[Str "Setting up environment..."]])).
Proof.
  destruct w as [f e o x c out].
  unfold setup_environment, io_bind, print, path_exists, ret, raise.
  cbn -[String.eqb present for_each].
  destruct (present ws f); cbn -[String.eqb present for_each]; [|reflexivity].
  destruct (String.eqb x "Available"); reflexivity.
Qed.

Lemma script_directories_named :
  forall d : path,
    In d [["results"]; ["results"; "scores"]; ["results"; "output_zones"]]%string ->
    d <> [].
Proof. intros d [<-|[<-|[<-|[]]]]; discriminate. Qed.





(** X15.  Running [setup_environment] again after it has returned
    changes no file and no directory: the three directories exist, so
    none is made. *)
Theorem setup_environment_again (ws : path) (w w1 : world)
  (Hrun : setup_environment ws w = (inl tt, w1)) :
  exists w2,
    setup_environment ws w1 = (inl tt, w2) /\ fs w2 = fs w1 /\
    spatial_checked_out w2 = true.
Proof.
  rewrite setup_environment_run in Hrun.
  destruct (present ws (fs w)) eqn:Ep; [|discriminate].
  destruct (String.eqb (spatial_extension w) "Available") eqn:El; [|discriminate].
  destruct (make_directories ws
              [["results"]; ["results"; "scores"]; ["results"; "output_zones"]]%string
              (mkWorld (fs w) (Some ws) true (spatial_extension w) true
                       (stdout w ++ [[Str "Setting up environment..."]]))
              script_directories_named)
    as (f' & Hloop & Hk & Hp & _).
  rewrite Hloop in Hrun. inversion Hrun; subst w1. clear Hrun.
  cbn [fs set_fs] in *.
  rewrite setup_environment_run. cbn [fs set_fs spatial_extension].
  rewrite (keeps_grows _ _ Hk ws Ep), El.
  destruct (make_directories ws
              [["results"]; ["results"; "scores"]; ["results"; "output_zones"]]%string
              (mkWorld f' (Some ws) true (spatial_extension w) true
                       ((stdout w ++ [[Str "Setting up environment..."]]) ++
                        [[Str "Setting up environment..."]]))
              script_directories_named)
    as (f'' & Hloop' & _ & _ & _ & Hsame).
  cbn [stdout set_fs] in *. rewrite Hloop'.
  eexists. split; [reflexivity|]. cbn [fs set_fs spatial_checked_out].
  split; [|reflexivity]. apply Hsame. exact Hp.
Qed.

Lemma setup_environment_again_witness :
  exists w1 w2,
    setup_environment ["C:"; "work"]%string
      (mkWorld [(["C:"; "work"]%string, Directory)] None false "Available" false [])
    = (inl tt, w1) /\
    setup_environment ["C:"; "work"]%string w1 = (inl tt, w2) /\ fs w2 = fs w1.
Proof.
  eexists. 
  destruct (setup_environment_again ["C:"; "work"]%string
              (mkWorld [(["C:"; "work"]%string, Directory)] None false "Available" false [])
              _ eq_refl) as (w2 & Hrun & Hfs & _).
  exists w2. split; [reflexivity|]. split; [exact Hrun|exact Hfs].
Defined.

(** ** [check_input_data] *)



(** ** What procedures guarantee *)

Lemma guarantees_bind {A B : Type} (P : world -> Prop) (m : io A) (k : A -> io B)
  (Q : A -> world -> Prop) (R : B -> world -> Prop) (E : world -> Prop) :
  guarantees P m Q E -> (forall a, guarantees (Q a) (k a) R E) ->
  guarantees P (io_bind m k) R E.
Proof.
  intros Hm Hk w Hw. unfold io_bind. specialize (Hm w Hw).
  destruct (m w) as [[a|e] w']; [|exact Hm].
  apply (Hk a w' Hm).
Qed.

Lemma guarantees_weaken {A : Type} (P P' : world -> Prop) (m : io A)
  (Q Q' : A -> world -> Prop) (E E' : world -> Prop) :
  guarantees P m Q E ->
  (forall w, P' w -> P w) -> (forall a w, Q a w -> Q' a w) -> (forall w, E w -> E' w) ->
  guarantees P' m Q' E'.
Proof.
  intros Hm HP HQ HE w Hw. specialize (Hm w (HP w Hw)).
  destruct (m w) as [[a|e] w']; auto.
Qed.

Lemma maintains_bind {A B : Type} (P : world -> Prop) (m : io A) (k : A -> io B) :
  maintains P m -> (forall a, maintains P (k a)) -> maintains P (io_bind m k).
Proof. intros Hm Hk. apply (guarantees_bind P m k (fun _ => P)); assumption. Qed.

Lemma maintains_ret {A : Type} (P : world -> Prop) (a : A) : maintains P (ret a).
Proof. intros w Hw. exact Hw. Qed.

Lemma maintains_raise {A : Type} (P : world -> Prop) (e : exception) :
  maintains P (@raise A e).
Proof. intros w Hw. exact Hw. Qed.

Lemma maintains_tool {A : Type} (P : world -> Prop) (r : A + exception) :
  maintains P (tool r).
Proof. intros w Hw. unfold tool. destruct r; exact Hw. Qed.

Lemma maintains_library {A : Type} (P : world -> Prop) (r : result A) :
  maintains P (library r).
Proof. destruct r; [apply maintains_ret|apply maintains_raise]. Qed.

Lemma maintains_read (P : world -> Prop) (p : path) : maintains P (read p).
Proof. intros w Hw. exact Hw. Qed.

Lemma maintains_path_exists (P : world -> Prop) (p : path) :
  maintains P (path_exists p).
Proof. intros w Hw. exact Hw. Qed.

(** Printing keeps every property of the files. *)
Lemma maintains_print (P : files -> Prop) (l : line) :
  maintains (fun w => P (fs w)) (print l).
Proof. intros w Hw. exact Hw. Qed.

(** ** Paths above a path *)

Lemma firstn_app_short {A : Type} (n : nat) (l m : list A) :
  (n <= length l)%nat -> firstn n (l ++ m) = firstn n l.
Proof.
  intros H. rewrite firstn_app.
  replace (n - length l)%nat with 0%nat by lia. simpl. apply app_nil_r.
Qed.

Lemma closed_save (f : files) (p : path) (d : data) :
  closed f ->
  (forall n, (1 <= n < length p)%nat -> present (firstn n p) f = true) ->
  closed ((p, d) :: f).
Proof.
  intros Hc Hp q n Hq Hn. rewrite present_head in *.
  apply orb_true_iff in Hq as [Hq|Hq].
  - apply path_eqb_eq in Hq. subst q.
    destruct (Nat.eq_dec n (length p)) as [->|Hne].
    + rewrite firstn_all, path_eqb_refl. reflexivity.
    + rewrite (Hp n) by lia. apply orb_true_r.
  - rewrite (Hc q n Hq Hn). apply orb_true_r.
Qed.

(** Saving a file into a directory that exists keeps the files closed. *)
Lemma closed_save_in (f : files) (dir : path) (name : string) (d : data) :
  closed f -> present dir f = true -> closed ((dir ++ [name], d) :: f).
Proof.
  intros Hc Hdir. apply closed_save; [exact Hc|].
  intros n Hn. rewrite length_app in Hn. simpl in Hn.
  rewrite firstn_app_short by lia.
  apply Hc; [exact Hdir|lia].
Qed.

Lemma mkdirs_closed (p : path) (f : files) :
  closed f ->
  closed (fold_left mkdir (map (fun n => firstn n p) (seq 1 (length p))) f).
Proof.
  intros Hc q n Hq Hn.
  apply present_lookup in Hq as [d Hd].
  destruct (mkdirs_new _ _ _ _ Hd) as [Hold|[Hin _]].
  - apply (keeps_grows _ _ (mkdirs_keeps _ f)).
    apply Hc; [|exact Hn]. apply present_lookup. eauto.
  - apply In_prefixes in Hin as [m [Hm ->]].
    apply mkdirs_present. apply In_prefixes.
    rewrite length_firstn in Hn.
    exists n. split; [lia|]. rewrite firstn_firstn. f_equal. lia.
Qed.

(** ** The stages keep the files in order *)

Lemma ready_print (start : files) (out : path) (l : line) :
  maintains (ready start out) (print l).
Proof. intros w Hw. exact Hw. Qed.

Lemma ready_save (start : files) (out dir : path) (name : string) (d : data) (w : world) :
  ready start out w -> present dir (fs w) = true ->
  ready start out (set_fs w ((dir ++ [name], d) :: fs w)).
Proof.
  intros (Hg & Hc & Ho & Hs & Hz) Hdir.
  assert (Hfs : fs (set_fs w ((dir ++ [name], d) :: fs w)) = (dir ++ [name], d) :: fs w)
    by (destruct w; reflexivity).
  unfold ready. rewrite Hfs.
  split; [eapply grows_trans; [exact Hg|apply grows_save]|].
  split; [apply closed_save_in; assumption|].
  repeat split; apply grows_save; assumption.
Qed.

Lemma ready_save_out (start : files) (out : path) (name : string) (d : data) :
  maintains (ready start out) (save (out ++ [name]) d).
Proof.
  intros w Hw. unfold save. apply ready_save; [exact Hw|]. apply Hw.
Qed.

Lemma ready_save_scores (start : files) (out : path) (name : string) (d : data) :
  maintains (ready start out) (save (out ++ ["scores"%string; name]) d).
Proof.
  intros w Hw. unfold save.
  change ["scores"%string; name] with (["scores"%string] ++ [name]).
  rewrite app_assoc. apply ready_save; [exact Hw|]. apply Hw.
Qed.

Lemma ready_save_zones (start : files) (out : path) (name : string) (d : data) :
  maintains (ready start out) (save (out ++ ["output_zones"%string; name]) d).
Proof.
  intros w Hw. unfold save.
  change ["output_zones"%string; name] with (["output_zones"%string] ++ [name]).
  rewrite app_assoc. apply ready_save; [exact Hw|]. apply Hw.
Qed.

Ltac maintain_step :=
  lazymatch goal with
  | |- maintains _ (io_bind _ _) => apply maintains_bind; [|intros ?]
  | |- maintains _ (ret _) => apply maintains_ret
  | |- maintains _ (raise _) => apply maintains_raise
  | |- maintains _ (tool _) => apply maintains_tool
  | |- maintains _ (library _) => apply maintains_library
  | |- maintains _ (read _) => apply maintains_read
  | |- maintains _ (path_exists _) => apply maintains_path_exists
  | |- maintains _ (print _) => apply ready_print
  | |- maintains _ (save (_ ++ [_]) _) => apply ready_save_out
  | |- maintains _ (save (_ ++ ["scores"%string; _]) _) => apply ready_save_scores
  | |- maintains _ (save (_ ++ ["output_zones"%string; _]) _) => apply ready_save_zones
  | |- maintains _ (if ?b then _ else _) => destruct b
  | |- maintains _ (match ?x with _ => _ end) => destruct x
  end.

Ltac maintain := cbv zeta; repeat maintain_step.

Lemma check_input_data_ready (tb : toolbox) (start : files) (out : path)
  (dem roads : path) (mask_path : option path) :
  maintains (ready start out) (check_input_data tb dem roads mask_path).
Proof. unfold check_input_data. maintain. Qed.

Lemma calculate_slope_ready (tb : toolbox) (start : files) (dem out : path) :
  maintains (ready start out) (calculate_slope_stage tb dem out).
Proof. unfold calculate_slope_stage. maintain. Qed.

Lemma calculate_aspect_ready (tb : toolbox) (start : files) (dem out : path) :
  maintains (ready start out) (calculate_aspect_stage tb dem out).
Proof. unfold calculate_aspect_stage. maintain. Qed.

Lemma calculate_solar_radiation_ready (tb : toolbox) (start : files)
  (dem out : path) (latitude : Q) :
  maintains (ready start out) (calculate_solar_radiation_stage tb dem out latitude).
Proof. unfold calculate_solar_radiation_stage. maintain. Qed.

Lemma calculate_distance_to_roads_ready (tb : toolbox) (start : files)
  (roads dem out : path) :
  maintains (ready start out) (calculate_distance_to_roads_stage tb roads dem out).
Proof. unfold calculate_distance_to_roads_stage. maintain. Qed.

Lemma calculate_suitability_ready (tb : toolbox) (start : files)
  (s1 s2 s3 s4 : raster) (out : path) (mask_path : option path) :
  maintains (ready start out) (calculate_suitability_stage tb s1 s2 s3 s4 out mask_path).
Proof. unfold calculate_suitability_stage. maintain. Qed.

Lemma extract_best_zones_ready (tb : toolbox) (start : files)
  (suitability : raster) (out : path) (min_area_ha : Q) :
  maintains (ready start out) (extract_best_zones_stage tb suitability out min_area_ha).
Proof. unfold extract_best_zones_stage. maintain. Qed.

Lemma create_hillshade_map_ready (tb : toolbox) (start : files)
  (dem final_zones out : path) :
  maintains (ready start out) (create_hillshade_map tb dem final_zones out).
Proof. unfold create_hillshade_map. maintain. Qed.

Lemma script_directory_prefix (d : path) (k : nat) :
  In d [["results"]; ["results"; "scores"]; ["results"; "output_zones"]]%string ->
  (1 <= k)%nat ->
  In (firstn k d) [["results"]; ["results"; "scores"]; ["results"; "output_zones"]]%string.
Proof.
  intros Hd Hk. destruct k as [|[|k]]; [lia| |].
  - destruct Hd as [<-|[<-|[<-|[]]]]; simpl; tauto.
  - destruct Hd as [<-|[<-|[<-|[]]]]; simpl; rewrite ?firstn_nil; tauto.
Qed.

(** [setup_environment] keeps the files in order and, when it returns,
    leaves the output directories in place. *)
Lemma setup_environment_ready (start : files) (ws : path) :
  guarantees (fun w => grows start (fs w) /\ closed (fs w))
             (setup_environment ws)
             (fun _ => ready start (ws ++ ["results"%string]))
             (fun w => grows start (fs w) /\ closed (fs w)).
Proof.
  intros w [Hg Hc]. rewrite setup_environment_run.
  destruct (present ws (fs w)) eqn:Ews; [|split; assumption].
  destruct (String.eqb (spatial_extension w) "Available"); [|split; assumption].
  destruct (make_directories ws
              [["results"]; ["results"; "scores"]; ["results"; "output_zones"]]%string
              (mkWorld (fs w) (Some ws) true (spatial_extension w) true
                       (stdout w ++ [[Str "Setting up environment..."]]))
              script_directories_named)
    as (f' & Hrun & Hk & Hp & Hn & _).
  rewrite Hrun. cbn [fs set_fs] in *. unfold ready. cbn [fs set_fs].
  split; [eapply grows_trans; [exact Hg|apply keeps_grows; exact Hk]|].
  split.
  - intros q n Hq Hlen. apply present_lookup in Hq as [x Hx].
    destruct (Hn q x Hx) as [Hold|(_ & d & Hd & [rest Hrest])].
    + apply (keeps_grows _ _ Hk). apply Hc; [|exact Hlen].
      apply present_lookup. eauto.
    + assert (Eq : firstn n q = firstn n (ws ++ d)).
      { rewrite Hrest. symmetry. apply firstn_app_short. lia. }
      rewrite Eq. destruct (le_lt_dec n (length ws)) as [Hle|Hgt].
      * rewrite firstn_app_short by exact Hle.
        apply (keeps_grows _ _ Hk). apply Hc; [exact Ews|lia].
      * rewrite firstn_app, firstn_all2 by lia.
        apply Hp. apply script_directory_prefix; [exact Hd|lia].
  - split; [apply Hp; simpl; tauto|].
    rewrite <- !app_assoc. split; apply Hp; simpl; tauto.
Qed.

Lemma main_try_ready (tb : toolbox) (start : files) :
  guarantees (fun w => grows start (fs w) /\ closed (fs w))
             (main_try tb)
             (fun _ w => grows start (fs w) /\ closed (fs w))
             (fun w => grows start (fs w) /\ closed (fs w)).
Proof.
  assert (Hweak : forall w, ready start output_dir w ->
                            grows start (fs w) /\ closed (fs w)).
  { intros w (Hg & Hc & _). split; assumption. }
  unfold main_try. cbv zeta.
  eapply guarantees_bind; [apply setup_environment_ready|]. intros u. cbv beta.
  fold output_dir.
  apply (guarantees_weaken (ready start output_dir) _ _
           (fun _ => ready start output_dir) _ (ready start output_dir));
    [|auto|intros ?; exact Hweak|exact Hweak].
  change (maintains (ready start output_dir)
            (check_input_data tb dem_path roads_path None ;;;
             slope_score <-- calculate_slope_stage tb dem_path output_dir ;;
             aspect_score <-- calculate_aspect_stage tb dem_path output_dir ;;
             solar_score <-- calculate_solar_radiation_stage tb dem_path output_dir
                               default_latitude ;;
             distance_score <-- calculate_distance_to_roads_stage tb roads_path dem_path
                                  output_dir ;;
             suitability <-- calculate_suitability_stage tb slope_score aspect_score
                               solar_score distance_score output_dir None ;;
             final_zones <-- extract_best_zones_stage tb suitability output_dir
                               default_min_area_ha ;;
             create_hillshade_map tb dem_path final_zones output_dir ;;;
             print [Str "✅ Analysis completed successfully!"])).
  apply maintains_bind; [apply check_input_data_ready|intros ?].
  apply maintains_bind; [apply calculate_slope_ready|intros s1].
  apply maintains_bind; [apply calculate_aspect_ready|intros s2].
  apply maintains_bind; [apply calculate_solar_radiation_ready|intros s3].
  apply maintains_bind; [apply calculate_distance_to_roads_ready|intros s4].
  apply maintains_bind; [apply calculate_suitability_ready|intros s].
  apply maintains_bind; [apply extract_best_zones_ready|intros zones].
  apply maintains_bind; [apply create_hillshade_map_ready|intros ?].
  apply ready_print.
Qed.

(** X17.  From files that lie in directories that exist, [main] always
    returns, whatever fails inside: the exception is caught, the Spatial
    extension is checked in at the end, no path has disappeared, and
    still every path lies in directories that exist: the rasters, the
    zones and the map are saved into directories that [setup_environment]
    has made. *)
Theorem main_keeps_files_in_order (tb : toolbox) (w : world)
  (Hclosed : closed (fs w)) :
  exists w',
    main tb w = (inl tt, w') /\
    spatial_checked_out w' = false /\
    grows (fs w) (fs w') /\ closed (fs w').
Proof.
  pose proof (main_try_ready tb (fs w) w (conj (grows_refl _) Hclosed)) as Htry.
  unfold main. destruct (main_try tb w) as [[[]|e] w1].
  - eexists. split; [reflexivity|]. cbn. destruct Htry. auto.
  - destruct Htry as [Hg Hc]. destruct e; eexists; (split; [reflexivity|]); cbn; auto.
Qed.

Lemma main_keeps_files_in_order_witness :
  exists w',
    main sample_toolbox
      (mkWorld [(workspace, Directory); (["E:"]%string, Directory)]
               None false "Available" false [])
    = (inl tt, w') /\
    spatial_checked_out w' = false /\ present workspace (fs w') = true.
Proof.
  destruct (main_keeps_files_in_order sample_toolbox
              (mkWorld [(workspace, Directory); (["E:"]%string, Directory)]
                       None false "Available" false []))
    as (w' & Hrun & Hin & Hg & _).
  - intros p n Hp Hn. cbn [fs] in *.
    rewrite !present_head in Hp. unfold present in Hp. simpl lookup in Hp.
    rewrite orb_false_r in Hp. apply orb_true_iff in Hp as [Hp|Hp];
      apply path_eqb_eq in Hp; subst p; simpl in Hn;
      destruct n as [|[|[|n]]]; try lia; reflexivity.
  - exists w'. split; [exact Hrun|]. split; [exact Hin|]. apply Hg. reflexivity.
Defined.

(** ** What a successful run leaves behind *)

Lemma io_bind_returns {A B : Type} (m : io A) (k : A -> io B) (w w' : world) (b : B) :
  io_bind m k w = (inl b, w') ->
  exists a w1, m w = (inl a, w1) /\ k a w1 = (inl b, w').
Proof.
  unfold io_bind. destruct (m w) as [[a|e] w1]; [|discriminate]. eauto.
Qed.

Lemma calculate_slope_stage_returns (tb : toolbox) (dem out : path)
  (w w' : world) (score : raster) :
  calculate_slope_stage tb dem out w = (inl score, w') ->
  exists slope,
    Slope tb (lookup dem (fs w)) = inl slope /\ calculate_slope slope = Ok score /\
    fs w' = (out ++ ["scores"; "slope_score.tif"]%string, RasterFile score)
            :: (out ++ ["slope.tif"%string], RasterFile slope) :: fs w.
Proof.
  destruct w as [f e o x c lines].
  unfold calculate_slope_stage, io_bind, print, read, tool, save, library, ret, raise.
  cbn -[calculate_slope lookup].
  destruct (Slope tb (lookup dem f)) as [slope|] eqn:Etool; [|discriminate].
  cbn -[calculate_slope lookup].
  destruct (calculate_slope slope) as [s|] eqn:Elib; cbn -[calculate_slope lookup];
    [|discriminate].
  intros H. inversion H; subst. exists slope. repeat split; assumption || reflexivity.
Qed.

Lemma calculate_aspect_stage_returns (tb : toolbox) (dem out : path)
  (w w' : world) (score : raster) :
  calculate_aspect_stage tb dem out w = (inl score, w') ->
  exists aspect,
    Aspect tb (lookup dem (fs w)) = inl aspect /\ calculate_aspect aspect = Ok score /\
    fs w' = (out ++ ["scores"; "aspect_score.tif"]%string, RasterFile score)
            :: (out ++ ["aspect.tif"%string], RasterFile aspect) :: fs w.
Proof.
  destruct w as [f e o x c lines].
  unfold calculate_aspect_stage, io_bind, print, read, tool, save, library, ret, raise.
  cbn -[calculate_aspect lookup].
  destruct (Aspect tb (lookup dem f)) as [aspect|] eqn:Etool; [|discriminate].
  cbn -[calculate_aspect lookup].
  destruct (calculate_aspect aspect) as [s|] eqn:Elib; cbn -[calculate_aspect lookup];
    [|discriminate].
  intros H. inversion H; subst. exists aspect. repeat split; assumption || reflexivity.
Qed.

Lemma calculate_solar_radiation_stage_returns (tb : toolbox) (dem out : path)
  (latitude : Q) (w w' : world) (score : raster) :
  calculate_solar_radiation_stage tb dem out latitude w = (inl score, w') ->
  exists solar,
    AreaSolarRadiation tb (lookup dem (fs w)) latitude = inl solar /\
    calculate_solar_radiation (solar_nodata tb) solar = Ok score /\
    fs w' = (out ++ ["scores"; "solar_score.tif"]%string, RasterFile score)
            :: (out ++ ["solar.tif"%string], RasterFile solar) :: fs w.
Proof.
  destruct w as [f e o x c lines].
  unfold calculate_solar_radiation_stage, io_bind, print, read, tool, save, library,
    ret, raise.
  cbn -[calculate_solar_radiation lookup].
  destruct (AreaSolarRadiation tb (lookup dem f) latitude) as [solar|] eqn:Etool; [|discriminate].
  cbn -[calculate_solar_radiation lookup].
  destruct (calculate_solar_radiation (solar_nodata tb) solar) as [s|] eqn:Elib;
    cbn -[calculate_solar_radiation lookup]; [|discriminate].
  intros H. inversion H; subst. exists solar. repeat split; assumption || reflexivity.
Qed.

Lemma calculate_distance_to_roads_stage_returns (tb : toolbox) (roads dem out : path)
  (w w' : world) (score : raster) :
  calculate_distance_to_roads_stage tb roads dem out w = (inl score, w') ->
  exists distance,
    EucDistance tb (lookup roads (fs w)) (meanCellHeight tb (lookup dem (fs w)))
    = inl distance /\
    calculate_distance_to_roads distance = Ok score /\
    fs w' = (out ++ ["scores"; "distance_score.tif"]%string, RasterFile score)
            :: (out ++ ["distance_to_roads.tif"%string], RasterFile distance) :: fs w.
Proof.
  destruct w as [f e o x c lines].
  unfold calculate_distance_to_roads_stage, io_bind, print, read, tool, save, library,
    ret, raise.
  cbn -[calculate_distance_to_roads lookup].
  destruct (EucDistance tb (lookup roads f) (meanCellHeight tb (lookup dem f)))
    as [distance|] eqn:Etool; [|discriminate].
  cbn -[calculate_distance_to_roads lookup].
  destruct (calculate_distance_to_roads distance) as [s|] eqn:Elib;
    cbn -[calculate_distance_to_roads lookup]; [|discriminate].
  intros H. inversion H; subst. exists distance. repeat split; assumption || reflexivity.
Qed.

Lemma calculate_suitability_stage_returns (tb : toolbox) (s1 s2 s3 s4 : raster)
  (out : path) (w w' : world) (suitability : raster) :
  calculate_suitability_stage tb s1 s2 s3 s4 out None w = (inl suitability, w') ->
  calculate_suitability s1 s2 s3 s4 None = Ok suitability /\
  fs w' = (out ++ ["suitability.tif"%string], RasterFile suitability) :: fs w.
Proof.
  destruct w as [f e o x c lines].
  unfold calculate_suitability_stage, io_bind, print, read, tool, save, library,
    ret, raise.
  cbn -[calculate_suitability].
  destruct (calculate_suitability s1 s2 s3 s4 None) as [s|] eqn:Elib;
    cbn -[calculate_suitability]; [|discriminate].
  intros H. inversion H; subst. split; reflexivity.
Qed.

Lemma extract_best_zones_stage_returns (tb : toolbox) (suitability : raster)
  (out : path) (min_area_ha : Q) (w w' : world) (final_zones : path) :
  extract_best_zones_stage tb suitability out min_area_ha w = (inl final_zones, w') ->
  final_zones = out ++ ["output_zones"; "selected_zones.shp"]%string /\
  fs w' = (out ++ ["output_zones"; "selected_zones.shp"]%string,
           FeatureFile (extract_best_zones suitability (cell_size tb) min_area_ha))
          :: (out ++ ["output_zones"; "best_zones.shp"]%string,
              FeatureFile (RasterToPolygon (Con (raster_ge suitability 4.5) 1)))
          :: (out ++ ["output_zones"; "best_zones.tif"]%string,
              RasterFile (Con (raster_ge suitability 4.5) 1))
          :: fs w.
Proof.
  destruct w as [f e o x c lines].
  unfold extract_best_zones_stage, io_bind, print, save, ret.
  cbn -[extract_best_zones RasterToPolygon Con raster_ge].
  intros H. inversion H; subst. split; reflexivity.
Qed.

Lemma create_hillshade_map_returns (tb : toolbox) (dem final_zones out : path)
  (w w' : world) :
  create_hillshade_map tb dem final_zones out w = (inl tt, w') ->
  exists hillshade,
    Hillshade tb (lookup dem (fs w)) = inl hillshade /\
    fs w' =
    (out ++ [("solar_suitability_" ++ now tb ++ ".pdf")%string],
     MapFile [("Hillshade"%string, out ++ ["hillshade.tif"%string]);
              ("Suitability"%string, out ++ ["suitability.tif"%string]);
              ("Best Zones"%string, final_zones)])
    :: (out ++ [("solar_suitability_" ++ now tb ++ ".mxd")%string],
        MapFile [("Hillshade"%string, out ++ ["hillshade.tif"%string]);
                 ("Suitability"%string, out ++ ["suitability.tif"%string]);
                 ("Best Zones"%string, final_zones)])
    :: (out ++ ["hillshade.tif"%string], RasterFile hillshade) :: fs w.
Proof.
  destruct w as [f e o x c lines].
  unfold create_hillshade_map, io_bind, print, read, tool, save, ret.
  cbn -[lookup String.append].
  destruct (Hillshade tb (lookup dem f)) as [hillshade|] eqn:Etool; [|discriminate].
  cbn -[lookup String.append].
  destruct (map_layers tb _) as [[]|]; cbn -[lookup String.append]; [|discriminate].
  intros H. inversion H; subst. exists hillshade. repeat split; assumption || reflexivity.
Qed.

Lemma append_left_cancel (s a b : string) :
  (s ++ a)%string = (s ++ b)%string -> a = b.
Proof.
  induction s as [|c s IH]; simpl; intros H; [exact H|].
  inversion H. auto.
Qed.

Lemma map_document_paths_differ (out : path) (timestamp : string) :
  path_eqb (out ++ [("solar_suitability_" ++ timestamp ++ ".pdf")%string])
           (out ++ [("solar_suitability_" ++ timestamp ++ ".mxd")%string]) = false.
Proof.
  destruct (path_eqb _ _) eqn:E; [|reflexivity].
  apply path_eqb_eq in E. apply app_inv_head in E. inversion E as [E'].
  apply append_left_cancel in E'. discriminate.
Qed.

(** X18.  When the [try] of [main] runs to its end, the files of the run
    fit together: the four score rasters are saved under [scores], the
    suitability raster saved is their weighted sum with no mask applied,
    the thresholded raster and the selected zones saved are those of
    that suitability raster with the minimum area of 2 hectares, and the
    map document and its PDF list the hillshade, the suitability raster
    and the selected zones. *)
Theorem main_outputs (tb : toolbox) (w w1 : world)
  (Hrun : main_try tb w = (inl tt, w1)) :
  main tb w = (inl tt, CheckInExtension w1) /\
  exists s1 s2 s3 s4 suitability,
    lookup (output_dir ++ ["scores"; "slope_score.tif"]%string) (fs w1)
    = Some (RasterFile s1) /\
    lookup (output_dir ++ ["scores"; "aspect_score.tif"]%string) (fs w1)
    = Some (RasterFile s2) /\
    lookup (output_dir ++ ["scores"; "solar_score.tif"]%string) (fs w1)
    = Some (RasterFile s3) /\
    lookup (output_dir ++ ["scores"; "distance_score.tif"]%string) (fs w1)
    = Some (RasterFile s4) /\
    calculate_suitability s1 s2 s3 s4 None = Ok suitability /\
    lookup (output_dir ++ ["suitability.tif"%string]) (fs w1)
    = Some (RasterFile suitability) /\
    lookup (output_dir ++ ["output_zones"; "best_zones.tif"]%string) (fs w1)
    = Some (RasterFile (Con (raster_ge suitability 4.5) 1)) /\
    lookup (output_dir ++ ["output_zones"; "selected_zones.shp"]%string) (fs w1)
    = Some (FeatureFile (extract_best_zones suitability (cell_size tb) 2)) /\
    lookup (output_dir ++ [("solar_suitability_" ++ now tb ++ ".mxd")%string]) (fs w1)
    = Some (MapFile
              [("Hillshade"%string, output_dir ++ ["hillshade.tif"%string]);
               ("Suitability"%string, output_dir ++ ["suitability.tif"%string]);
               ("Best Zones"%string,
                output_dir ++ ["output_zones"; "selected_zones.shp"]%string)]) /\
    lookup (output_dir ++ [("solar_suitability_" ++ now tb ++ ".pdf")%string]) (fs w1)
    = lookup (output_dir ++ [("solar_suitability_" ++ now tb ++ ".mxd")%string]) (fs w1).
Proof.
  split; [unfold main; rewrite Hrun; reflexivity|].
  unfold main_try in Hrun. cbv zeta in Hrun.
  apply io_bind_returns in Hrun as (u0 & wa & _ & Hrun).
  apply io_bind_returns in Hrun as (u1 & wb & _ & Hrun).
  apply io_bind_returns in Hrun as (s1 & wc & H1 & Hrun).
  apply io_bind_returns in Hrun as (s2 & wd & H2 & Hrun).
  apply io_bind_returns in Hrun as (s3 & we & H3 & Hrun).
  apply io_bind_returns in Hrun as (s4 & wf & H4 & Hrun).
  apply io_bind_returns in Hrun as (s & wg & H5 & Hrun).
  apply io_bind_returns in Hrun as (zones & wh & H6 & Hrun).
  apply io_bind_returns in Hrun as (u2 & wi & H7 & Hrun).
  destruct u2.
  apply calculate_slope_stage_returns in H1 as (g1 & _ & _ & F1).
  apply calculate_aspect_stage_returns in H2 as (g2 & _ & _ & F2).
  apply calculate_solar_radiation_stage_returns in H3 as (g3 & _ & _ & F3).
  apply calculate_distance_to_roads_stage_returns in H4 as (g4 & _ & _ & F4).
  apply calculate_suitability_stage_returns in H5 as (Hs & F5).
  apply extract_best_zones_stage_returns in H6 as (-> & F6).
  apply create_hillshade_map_returns in H7 as (g7 & _ & F7).
  assert (F8 : fs w1 = fs wi) by (unfold print in Hrun; inversion Hrun; reflexivity).
  exists s1, s2, s3, s4, s. rewrite F8, F7, F6, F5, F4, F3, F2, F1.
  split; [vm_compute; reflexivity|]. split; [vm_compute; reflexivity|].
  split; [vm_compute; reflexivity|]. split; [vm_compute; reflexivity|].
  split; [exact Hs|].
  split; [vm_compute; reflexivity|]. split; [vm_compute; reflexivity|].
  split; [vm_compute; reflexivity|].
  rewrite !(lookup_head (output_dir ++ [("solar_suitability_" ++ now tb ++ ".pdf")%string])).
  rewrite map_document_paths_differ, !path_eqb_refl, lookup_head, path_eqb_refl.
  split; reflexivity.
Qed.

Lemma main_outputs_witness :
  exists s1 s2 s3 s4 suitability,
    lookup (output_dir ++ ["scores"; "slope_score.tif"]%string)
           (fs (snd (main_try sample_toolbox sample_world))) = Some (RasterFile s1) /\
    calculate_suitability s1 s2 s3 s4 None = Ok suitability /\
    lookup (output_dir ++ ["suitability.tif"%string])
           (fs (snd (main_try sample_toolbox sample_world)))
    = Some (RasterFile suitability).
Proof.
  destruct (main_outputs sample_toolbox sample_world
              (snd (main_try sample_toolbox sample_world)))
    as (_ & s1 & s2 & s3 & s4 & s & H1 & _ & _ & _ & Hs & H5 & _).
  - vm_compute. reflexivity.
  - exists s1, s2, s3, s4, s. auto.
Defined.

(** ** The guards of [main] *)




